(** * xtid: 20-byte sortable identifiers and their base-62 text form

    A shallow embedding of [xtid.go] (package [xtid]) and of the pieces of
    the Go standard library it calls ([bytes.Compare], [encoding/binary],
    [io.ReadFull], [copy]), followed by the properties the specification
    states about them.

    Conventions.
    - A Go [byte] is a [Byte.byte]; [byte.unsigned] and [byte.of_Z] (the
      latter truncating to the low 8 bits, like Go's [byte(v)]) move between
      bytes and [Z].
    - A Go [[]byte], a [[n]byte] array and a [string] are all [list byte];
      the fixed length of an array is a side condition ([length i = 20]).
    - [uint16], [uint64] and [int64] are [Z] with the wrap-around written
      out.
    - A method with a pointer receiver takes the receiver's old value and
      returns its new value next to the error. *)

From Stdlib Require Import String.
From Stdlib Require Import ZArith List Lia Bool.
From Stdlib Require Import Init.Byte.
From coqutil Require Import Byte.
Import ListNotations.

Local Open Scope Z_scope.

(* ------------------------------------------------------------------ *)
(** * Part I: the embedding                                            *)
(* ------------------------------------------------------------------ *)

(** ** Positional numerals, most significant digit first *)

Section Radix.

Variable B : Z.

(** [acc = acc*B + digit], digit after digit. *)
Fixpoint horner (acc : Z) (ds : list Z) : Z :=
  match ds with
  | [] => acc
  | d :: ds' => horner (acc * B + d) ds'
  end.

Definition digits_ok (ds : list Z) : Prop :=
  Forall (fun d => 0 <= d < B) ds.

Definition weight (ds : list Z) : Z := B ^ Z.of_nat (length ds).

End Radix.

(** Lexicographic comparison of digit strings. *)
Fixpoint lex (xs ys : list Z) : comparison :=
  match xs, ys with
  | [], [] => Eq
  | [], _ :: _ => Lt
  | _ :: _, [] => Gt
  | x :: xs', y :: ys' =>
      match x ?= y with
      | Eq => lex xs' ys'
      | c => c
      end
  end.

(** A Go [int] holding the outcome of a three-way comparison. *)
Definition int_of_comparison (c : comparison) : Z :=
  match c with Lt => -1 | Eq => 0 | Gt => 1 end.

(** ** Slices and arrays *)

Section Slices.

Context {A : Type}.

(** The built-in [copy(dst, src)]: the first [min(len(dst), len(src))]
    elements of [src] overwrite the start of [dst]. *)
Definition copy (dst src : list A) : list A :=
  firstn (length dst) src ++ skipn (length src) dst.

(** [l[lo:hi]] read as a value. *)
Definition slice (l : list A) (lo hi : nat) : list A :=
  firstn (hi - lo) (skipn lo l).

(** A slice [l[lo:]] aliases [l]: what is written through the slice is
    written to [l] from index [lo] on. *)
Definition splice (l : list A) (lo : nat) (new : list A) : list A :=
  firstn lo l ++ new ++ skipn (lo + length new) l.

End Slices.

(** ** Errors *)

Inductive error : Set :=
| errSize          (* "Valid XTIDs are 20 bytes" *)
| errStrSize       (* "Valid encoded XTIDs are 27 characters" *)
| errStrValue      (* "Valid encoded XTIDs are bounded by ... and ..." *)
| errPayloadSize   (* "Valid XTID payloads are 10 bytes" *)
| errValueRange    (* the codec's value-range error *)
| errScanType (tyname : string)
                   (* "Scan: unable to scan type %T into XTID" *)
| EOF              (* io.EOF *)
| ErrUnexpectedEOF (* io.ErrUnexpectedEOF *)
| ErrShortBuffer   (* io.ErrShortBuffer *)
| ErrIO (msg : string). (* any other error of a reader *)

(** ** [bytes], [strings] *)

(** [bytes.Compare]: 0 if [a == b], -1 if [a < b], +1 if [a > b], in
    lexicographic order; a proper prefix is smaller. *)
Fixpoint bytes_Compare (a b : list byte) : Z :=
  match a, b with
  | [], [] => 0
  | [], _ :: _ => -1
  | _ :: _, [] => 1
  | x :: a', y :: b' =>
      if byte.unsigned x <? byte.unsigned y then -1
      else if byte.unsigned y <? byte.unsigned x then 1
      else bytes_Compare a' b'
  end.

(** Comparison of two strings, byte by byte ([strings.Compare], C's
    [strcmp]): a Go string is its bytes. *)
Definition strcmp (s t : list byte) : Z := bytes_Compare s t.

(** ** [encoding/binary], big endian *)

(** [uint16(b[1]) | uint16(b[0])<<8].  Go panics on a slice shorter than
    two bytes; every call below passes a slice of a 20-byte array. *)
Definition Uint16 (b : list byte) : Z :=
  Z.lor (byte.unsigned (nth 1 b x00))
        (Z.shiftl (byte.unsigned (nth 0 b x00)) 8).

Definition PutUint16 (b : list byte) (v : Z) : list byte :=
  splice b 0 [byte.of_Z (Z.shiftr v 8); byte.of_Z v].

Definition Uint64 (b : list byte) : Z :=
  Z.lor (byte.unsigned (nth 7 b x00))
  (Z.lor (Z.shiftl (byte.unsigned (nth 6 b x00)) 8)
  (Z.lor (Z.shiftl (byte.unsigned (nth 5 b x00)) 16)
  (Z.lor (Z.shiftl (byte.unsigned (nth 4 b x00)) 24)
  (Z.lor (Z.shiftl (byte.unsigned (nth 3 b x00)) 32)
  (Z.lor (Z.shiftl (byte.unsigned (nth 2 b x00)) 40)
  (Z.lor (Z.shiftl (byte.unsigned (nth 1 b x00)) 48)
         (Z.shiftl (byte.unsigned (nth 0 b x00)) 56))))))).

Definition PutUint64 (b : list byte) (v : Z) : list byte :=
  splice b 0
    [byte.of_Z (Z.shiftr v 56); byte.of_Z (Z.shiftr v 48);
     byte.of_Z (Z.shiftr v 40); byte.of_Z (Z.shiftr v 32);
     byte.of_Z (Z.shiftr v 24); byte.of_Z (Z.shiftr v 16);
     byte.of_Z (Z.shiftr v 8); byte.of_Z v].

(** ** [time] *)

(** A [time.Time] as the two numbers [UnixMicro] reads: the seconds since
    the Unix epoch and the nanoseconds within the second. *)
Record Time : Set := { unixSec : Z; nsec : Z }.

(** Conversion to [int64] and to [uint64]: the value modulo [2^64]. *)
Definition to_int64 (z : Z) : Z := (z + 2 ^ 63) mod 2 ^ 64 - 2 ^ 63.
Definition to_uint64 (z : Z) : Z := z mod 2 ^ 64.

(** [t.unixSec()*1e6 + int64(t.nsec())/1e3], in [int64]. *)
Definition UnixMicro (t : Time) : Z :=
  to_int64 (unixSec t * 1000000 + nsec t / 1000).

(** ** [io] *)

(** An [io.Reader] with state [R].  [Read r n] is a call [r.Read(p)] with
    [len(p) = n]: it returns the bytes it stored at the start of [p] (at
    most [n] are kept), the error, and the reader afterwards. *)
Class Reader (R : Type) : Type :=
  { Read : R -> nat -> list byte * option error * R }.

Section IO.

Context {R : Type} `{Reader R}.

(** The loop of [io.ReadAtLeast]:
    [for n < min && err == nil { nn, err = r.Read(buf[n:]); n += nn }].
    A reader may answer [0, nil] for ever; the loop is cut after [fuel]
    calls and then yields [None]. *)
Fixpoint readLoop (fuel : nat) (r : R) (buf : list byte) (min n : nat)
    (err : option error) : option (list byte * nat * option error * R) :=
  if (n <? min)%nat && (match err with None => true | Some _ => false end)
  then
    match fuel with
    | O => None
    | S fuel' =>
        let '(d, err', r') := Read r (length buf - n) in
        let d := firstn (length buf - n) d in
        readLoop fuel' r' (splice buf n d) min (n + length d) err'
    end
  else Some (buf, n, err, r).

Definition ReadAtLeast (fuel : nat) (r : R) (buf : list byte) (min : nat)
    : option (list byte * nat * option error * R) :=
  if (length buf <? min)%nat then Some (buf, O, Some ErrShortBuffer, r)
  else
    match readLoop fuel r buf min 0 None with
    | None => None
    | Some (buf', n, err, r') =>
        if (min <=? n)%nat then Some (buf', n, None, r')
        else
          match err with
          | Some EOF =>
              if (0 <? n)%nat then Some (buf', n, Some ErrUnexpectedEOF, r')
              else Some (buf', n, err, r')
          | _ => Some (buf', n, err, r')
          end
    end.

Definition ReadFull (fuel : nat) (r : R) (buf : list byte)
    : option (list byte * nat * option error * R) :=
  ReadAtLeast fuel r buf (length buf).

End IO.

(** ** The entropy pool *)

(** [type entropyPool struct { mux sync.Mutex; buffer io.Reader }].  The
    mutex orders concurrent calls; one call at a time is modelled. *)
Record entropyPool (R : Type) : Type := { buffer : R }.

Arguments buffer {R} _.

(** [func (r *entropyPool) Read(p []byte)]: [r.buffer.Read(p)] under the
    lock. *)
#[export] Instance entropyPool_Reader {R : Type} `{Reader R}
  : Reader (entropyPool R) :=
  {| Read := fun r n =>
       let '(d, err, b) := Read (buffer r) n in
       (d, err, {| buffer := b |}) |}.

(** ** Constants of [xtid.go] *)

Definition timestampLengthInBytes : nat := 8.
Definition payloadLengthInBytes : nat := 10.
Definition typeLengthInbytes : nat := 2.
Definition byteLength : nat :=
  timestampLengthInBytes + typeLengthInbytes + payloadLengthInBytes.
Definition payloadStart : nat := timestampLengthInBytes + typeLengthInbytes.
Definition stringEncodedLength : nat := 27.
Definition minStringEncoded : list byte :=
  list_byte_of_string "000000000000000000000000000".
Definition maxStringEncoded : list byte :=
  list_byte_of_string "aWgEPTl1tmebfsQzFP4bxwgy80V".

(** ** The base-62 codec *)

(** Modelled from the spec: the alphabet of the codec, whose file is not
    part of the sources at hand.  Section 6: the 62 symbols are the digits,
    then the upper-case letters, then the lower-case letters, which is also
    their ASCII order; [maxStringEncoded] above is the text of the largest
    identifier in this alphabet. *)
Definition alphabet : list byte :=
  list_byte_of_string
    "0123456789ABCDEFGHIJKLMNOPQRSTUVWXYZabcdefghijklmnopqrstuvwxyz".

(** Modelled from the spec: the alphabet's zero symbol, the character
    [0]. *)
Definition zeroSymbol : byte := x30.

(** Modelled from the spec: the symbol of a digit. *)

Definition base62Symbol (d : Z) : byte := nth (Z.to_nat d) alphabet zeroSymbol.

(** The place of [c] in [l], counted from [i]. *)
Fixpoint index_of (c : byte) (l : list byte) (i : Z) : option Z :=
  match l with
  | [] => None
  | x :: l' => if Byte.eqb c x then Some i else index_of c l' (i + 1)
  end.

(** Modelled from the spec: the digit of a symbol, its place in the
    alphabet; [None] for a character outside the alphabet. *)
Definition base62Value (c : byte) : option Z := index_of c alphabet 0.

(** Modelled from the spec: the bytes read as one unsigned big-endian
    integer (160 bits for 20 bytes). *)
Definition be_value (b : list byte) : Z :=
  horner 256 0 (map byte.unsigned b).

(** Modelled from the spec: the [n] low bytes of [v], most significant
    first. *)
Fixpoint be_bytes (n : nat) (v : Z) : list byte :=
  match n with
  | O => []
  | S n' => be_bytes n' (v / 256) ++ [byte.of_Z v]
  end.

(** Modelled from the spec: repeated division by 62 until nothing is
    left, giving the remainders, least significant first.  [fuel] bounds
    the number of divisions. *)
Fixpoint divide62 (fuel : nat) (n : Z) : list Z :=
  match fuel with
  | O => []
  | S fuel' => if n =? 0 then [] else n mod 62 :: divide62 fuel' (n / 62)
  end.

(** Modelled from the spec: the remainders of a number.  Every division
    at least halves the number, so its bit length is fuel enough
    ([remainders62_spec] below). *)
Definition remainders62 (n : Z) : list Z :=
  divide62 (S (Z.to_nat (Z.log2 n))) n.

(** Modelled from the spec: the codec's encoder ([fastAppendEncodeBase62]
    is called by [Append] but its file is not part of the sources at hand).
    Section 4.1: the 20 bytes are a 160-bit unsigned big-endian integer,
    divided by 62 again and again; the symbol of each remainder is emitted
    from the least significant digit on; the symbols are reversed and
    padded on the left with the zero symbol to 27 characters. *)
Definition encodeBase62 (src : list byte) : list byte :=
  let symbols := rev (map base62Symbol (remainders62 (be_value src))) in
  repeat zeroSymbol (stringEncodedLength - length symbols) ++ symbols.

(** Modelled from the spec: the encoder appends to the buffer it is
    given. *)
Definition fastAppendEncodeBase62 (dst src : list byte) : list byte :=
  dst ++ encodeBase62 src.

(** Modelled from the spec: the accumulation of Section 4.1,
    [acc = acc*62 + digit] over a 160-bit accumulator, overflow detected
    at each step; a character outside the alphabet also fails. *)
Fixpoint accumulate62 (acc : Z) (src : list byte) : option Z :=
  match src with
  | [] => Some acc
  | c :: src' =>
      match base62Value c with
      | None => None
      | Some d =>
          let acc' := acc * 62 + d in
          if 2 ^ 160 <=? acc' then None else accumulate62 acc' src'
      end
  end.

(** Modelled from the spec: the codec's decoder ([fastDecodeBase62] is
    called by [Parse] but its file is not part of the sources at hand).
    Section 4.1: it fails with a value-range error when the input is not 27
    characters long, when a character is outside the alphabet, or when the
    number does not fit 160 bits; otherwise the 20 bytes of the number are
    stored in [dst].  The result is the content of [dst] afterwards and the
    error; the spec does not say what [dst] holds after a failure (it is
    left as it was here; [Parse] does not read it). *)
Definition fastDecodeBase62 (dst src : list byte) : list byte * option error :=
  if negb (length src =? stringEncodedLength)%nat
  then (dst, Some errValueRange)
  else
    match accumulate62 0 src with
    | None => (dst, Some errValueRange)
    | Some v => (copy dst (be_bytes byteLength v), None)
    end.

(** ** [xtid.go] *)

(** [type XTID [byteLength]byte]. *)
Definition XTID : Type := list byte.

(** [var Nil XTID]: the zero value. *)
Definition Nil : XTID := repeat x00 byteLength.

Definition Max : XTID :=
  [xff; xff; xff; xff; xff; xff; xff; xff; xff; xff;
   xff; xff; xff; xff; xff; xff; xff; xff; xff; xff].

Definition Append (i : XTID) (b : list byte) : list byte :=
  fastAppendEncodeBase62 b i.

Definition Type_ (i : XTID) : Z :=
  Uint16 (slice i timestampLengthInBytes payloadStart).

Definition Timestamp (i : XTID) : Z :=
  Uint64 (slice i 0 timestampLengthInBytes).

(** [string(i.Append(make([]byte, 0, stringEncodedLength)))]. *)
Definition String (i : XTID) : list byte := Append i [].

Definition Bytes (i : XTID) : list byte := i.

Definition IsNil (i : XTID) : bool :=
  if list_eq_dec Byte.byte_eq_dec i Nil then true else false.

Definition MarshalText (i : XTID) : list byte * option error :=
  (String i, None).

Definition MarshalBinary (i : XTID) : list byte * option error :=
  (Bytes i, None).

Definition MarshalJSON (i : XTID) : list byte * option error :=
  MarshalText i.

Definition FromBytes (b : list byte) : XTID * option error :=
  let id : XTID := Nil in
  if negb (length b =? byteLength)%nat then (Nil, Some errSize)
  else (copy id b, None).

Definition FromBytesOrNil (b : list byte) : XTID :=
  match FromBytes b with
  | (_, Some _) => Nil
  | (id, None) => id
  end.

Definition Parse (s : list byte) : XTID * option error :=
  if negb (length s =? stringEncodedLength)%nat then (Nil, Some errStrSize)
  else
    let src := repeat x00 stringEncodedLength in
    let dst := repeat x00 byteLength in
    let src := copy src s in
    match fastDecodeBase62 dst src with
    | (_, Some _) => (Nil, Some errStrValue)
    | (dst, None) => FromBytes dst
    end.

Definition ParseOrNil (s : list byte) : XTID :=
  match Parse s with
  | (_, Some _) => Nil
  | (id, None) => id
  end.

(** Methods on [*XTID]: the first argument is the value the receiver
    points to before the call, the first result its value after. *)
Definition UnmarshalText (i : XTID) (b : list byte) : XTID * option error :=
  match Parse b with
  | (_, Some err) => (i, Some err)
  | (id, None) => (id, None)
  end.

Definition Set_ (i : XTID) (s : list byte) : XTID * option error :=
  UnmarshalText i s.

Definition UnmarshalBinary (i : XTID) (b : list byte) : XTID * option error :=
  match FromBytes b with
  | (_, Some err) => (i, Some err)
  | (id, None) => (id, None)
  end.

Definition scan (i : XTID) (b : list byte) : XTID * option error :=
  match length b with
  | 0%nat => (Nil, None)
  | 20%nat => UnmarshalBinary i b
  | 27%nat => UnmarshalText i b
  | _ => (i, Some errSize)
  end.

Definition UnmarshalJSON (i : XTID) (v : list byte) : XTID * option error :=
  scan i v.

(** The values [Scan] tells apart by their dynamic type. *)
Inductive any : Type :=
| any_nil
| any_bytes (v : list byte)
| any_string (v : list byte)
| any_other (tyname : string).

Definition Scan (i : XTID) (src : any) : XTID * option error :=
  match src with
  | any_nil => scan i []
  | any_bytes v => scan i v
  | any_string v => scan i v
  | any_other tyname => (i, Some (errScanType tyname))
  end.


Definition timeToCorrectedUTCTimestamp (t : Time) : Z :=
  to_uint64 (UnixMicro t).

Definition Compare (a b : XTID) : Z := bytes_Compare a b.

Section Minting.

Context {R : Type} `{Reader R}.

(** [Make] reads the package variable [source]; here the reader is an
    argument and comes back in the result.  [None]: the read loop did
    not end within [fuel] calls. *)
Definition Make (fuel : nat) (source : R) (t : Time) (typ : Z)
    : option (XTID * option error * R) :=
  let id : XTID := Nil in
  match ReadFull fuel source (slice id payloadStart byteLength) with
  | None => None
  | Some (payload, _, err, source') =>
      let id := splice id payloadStart payload in
      match err with
      | Some e =>
          let id := Nil in
          Some (id, Some e, source')
      | None =>
          let ts := timeToCorrectedUTCTimestamp t in
          let id :=
            splice id 0
              (PutUint64 (slice id 0 timestampLengthInBytes) ts) in
          let id :=
            splice id timestampLengthInBytes
              (PutUint16 (slice id timestampLengthInBytes payloadStart) typ)
          in
          Some (id, None, source')
      end
  end.

End Minting.

(** ** The rest of [xtid.go]: time, database values, generators *)

Definition to_int32 (z : Z) : Z := (z + 2 ^ 31) mod 2 ^ 32 - 2 ^ 31.

(** [time.Unix(sec, nsec)], in [int64] arithmetic; Go's [/] truncates
    towards zero ([Z.quot]).  The result holds [sec] seconds and [nsec]
    nanoseconds, the latter brought into [0, 1e9). *)
Definition time_Unix (sec nsec : Z) : Time :=
  if (nsec <? 0) || (1000000000 <=? nsec) then
    let n := Z.quot nsec 1000000000 in
    let sec := to_int64 (sec + n) in
    let nsec := to_int64 (nsec - to_int64 (n * 1000000000)) in
    if nsec <? 0 then
      {| unixSec := to_int64 (sec - 1);
         nsec := to_int32 (to_int64 (nsec + 1000000000)) |}
    else {| unixSec := sec; nsec := to_int32 nsec |}
  else {| unixSec := sec; nsec := to_int32 nsec |}.

(** [time.UnixMicro(usec)]: [Unix(usec/1e6, (usec%1e6)*1e3)]. *)
Definition time_UnixMicro (usec : Z) : Time :=
  time_Unix (Z.quot usec 1000000) (to_int64 (Z.rem usec 1000000 * 1000)).

(** [time.UnixMicro(int64(ts))]. *)
Definition correctedUTCTimestampToTime (ts : Z) : Time :=
  time_UnixMicro (to_int64 ts).

(** The method [Time] of an identifier. *)
Definition XTID_Time (i : XTID) : Time :=
  correctedUTCTimestampToTime (Timestamp i).

(** [Value]: a [driver.Value] is [nil] or a string here. *)
Definition Value (i : XTID) : any * option error :=
  if IsNil i then (any_nil, None) else (any_string (String i), None).

Section Generators.

Context {R : Type} `{Reader R}.

(** [Make(time.Now(), typ)]; what the clock says is the argument [now]. *)
Definition NewWithType (fuel : nat) (source : R) (now : Time) (typ : Z)
    : option (XTID * option error * R) :=
  Make fuel source now typ.

(** [id, _ = NewWithType(0)]: the error is dropped. *)
Definition NewOrNil (fuel : nat) (source : R) (now : Time)
    : option (XTID * R) :=
  match NewWithType fuel source now 0 with
  | None => None
  | Some (id, _, source') => Some (id, source')
  end.


End Generators.

(** ** Notions used to state the properties *)

(** The digits a string of symbols stands for, if all are symbols. *)
Fixpoint symbols_digits (s : list byte) : option (list Z) :=
  match s with
  | [] => Some []
  | c :: s' =>
      match base62Value c, symbols_digits s' with
      | Some d, Some ds => Some (d :: ds)
      | _, _ => None
      end
  end.

(** A string drawn entirely from the 62-symbol alphabet. *)
Definition in_alphabet (s : list byte) : Prop :=
  Forall (fun c => In c alphabet) s.

(** A text enclosed in quotation marks. *)
Definition quoted (s : list byte) : list byte := x22 :: s ++ [x22].

(** A reader that hands out [chunk], at most [budget] times, and then
    fails with [err].  The state is the number of reads left. *)
Definition chunkReader (chunk : list byte) (err : error) : Reader nat :=
  {| Read := fun budget n =>
       match budget with
       | O => ([], Some err, O)
       | S budget' => (firstn n chunk, None, budget')
       end |}.

(* ------------------------------------------------------------------ *)
(** * Part II: properties                                              *)
(* ------------------------------------------------------------------ *)

(** ** Positional numerals *)

Section RadixFacts.

Variable B : Z.
Hypothesis B_gt_1 : 1 < B.

Lemma weight_pos ds : 0 < weight B ds.
Proof. unfold weight. apply Z.pow_pos_nonneg; lia. Qed.

Lemma weight_cons d ds : weight B (d :: ds) = B * weight B ds.
Proof.
  unfold weight. cbn [length]. rewrite Nat2Z.inj_succ, Z.pow_succ_r; lia.
Qed.

Lemma horner_split acc ds :
  horner B acc ds = acc * weight B ds + horner B 0 ds.
Proof.
  revert acc. induction ds as [|d ds IH]; intros acc; cbn [horner].
  - unfold weight; cbn. lia.
  - rewrite IH, (IH (0 * B + d)), weight_cons. ring.
Qed.

Lemma horner_app acc xs ys :
  horner B acc (xs ++ ys) = horner B (horner B acc xs) ys.
Proof. revert acc. induction xs; intros; cbn [horner app]; auto. Qed.

Lemma horner_bound ds : digits_ok B ds -> 0 <= horner B 0 ds < weight B ds.
Proof.
  induction 1 as [|d ds Hd _ IH]; cbn [horner].
  - unfold weight; cbn. lia.
  - rewrite horner_split, weight_cons.
    pose proof (weight_pos ds). nia.
Qed.

(** The accumulator never shrinks. *)
Lemma horner_ge acc ds : 0 <= acc -> digits_ok B ds -> acc <= horner B acc ds.
Proof.
  intros Hacc Hds. rewrite horner_split.
  pose proof (weight_pos ds). pose proof (horner_bound ds Hds). nia.
Qed.

Lemma horner_zeros k ds :
  horner B 0 (repeat 0 k ++ ds) = horner B 0 ds.
Proof. induction k; cbn [repeat app horner]; auto. Qed.

(** With a fixed width, comparing digit strings is comparing numbers. *)
Lemma lex_horner xs ys :
  length xs = length ys -> digits_ok B xs -> digits_ok B ys ->
  lex xs ys = (horner B 0 xs ?= horner B 0 ys).
Proof.
  revert ys. induction xs as [|x xs IH]; intros [|y ys] Hlen Hx Hy;
    try discriminate; cbn [lex horner].
  - reflexivity.
  - inversion Hx as [|? ? Hx0 Hxs]; inversion Hy as [|? ? Hy0 Hys]; subst.
    injection Hlen as Hlen.
    rewrite (horner_split (0 * B + x)), (horner_split (0 * B + y)).
    assert (Hw : weight B xs = weight B ys)
      by (unfold weight; now rewrite Hlen).
    pose proof (horner_bound xs Hxs). pose proof (horner_bound ys Hys).
    pose proof (weight_pos ys). rewrite Hw in *.
    destruct (Z.compare_spec x y) as [-> | Hlt | Hgt].
    + rewrite (IH ys Hlen Hxs Hys).
      destruct (Z.compare_spec (horner B 0 xs) (horner B 0 ys));
        symmetry; [apply Z.compare_eq_iff | apply Z.compare_lt_iff
                  | apply Z.compare_gt_iff]; lia.
    + symmetry. apply Z.compare_lt_iff. nia.
    + symmetry. apply Z.compare_gt_iff. nia.
Qed.

Lemma lex_eq xs ys : lex xs ys = Eq -> xs = ys.
Proof.
  revert ys. induction xs as [|x xs IH]; intros [|y ys]; cbn [lex];
    try discriminate; auto.
  destruct (Z.compare_spec x y); try discriminate.
  intros H'. subst. f_equal. auto.
Qed.

(** A number has at most one representation of a given width. *)
Lemma horner_inj xs ys :
  length xs = length ys -> digits_ok B xs -> digits_ok B ys ->
  horner B 0 xs = horner B 0 ys -> xs = ys.
Proof.
  intros Hlen Hx Hy Hv. apply lex_eq.
  rewrite lex_horner by assumption. now apply Z.compare_eq_iff.
Qed.

End RadixFacts.

(** ** Slices *)

Lemma copy_full {A} (dst src : list A) :
  length dst = length src -> copy dst src = src.
Proof.
  intros Hlen. unfold copy. rewrite Hlen, firstn_all, skipn_all2 by lia.
  apply app_nil_r.
Qed.

Lemma splice_length {A} (l new : list A) lo :
  (lo + length new <= length l)%nat -> length (splice l lo new) = length l.
Proof.
  intros Hle. unfold splice.
  rewrite !length_app, length_firstn, length_skipn. lia.
Qed.

Lemma splice_nil {A} (l : list A) lo : splice l lo [] = l.
Proof.
  unfold splice. cbn [length app]. rewrite Nat.add_0_r. apply firstn_skipn.
Qed.

(** ** Bytes as base-256 digits *)

Lemma bytes_digits_ok b : digits_ok 256 (map byte.unsigned b).
Proof.
  induction b; constructor; auto.
  pose proof (byte.unsigned_range a). lia.
Qed.

Lemma bytes_Compare_lex a b :
  bytes_Compare a b =
  int_of_comparison (lex (map byte.unsigned a) (map byte.unsigned b)).
Proof.
  revert b. induction a as [|x a IH]; intros [|y b]; cbn; try reflexivity.
  destruct (Z.compare_spec (byte.unsigned x) (byte.unsigned y)) as [E|L|G].
  - rewrite E, Z.ltb_irrefl. apply IH.
  - apply Z.ltb_lt in L. now rewrite L.
  - assert ((byte.unsigned x <? byte.unsigned y) = false) as -> by lia.
    apply Z.ltb_lt in G. now rewrite G.
Qed.

Lemma be_value_bound b : 0 <= be_value b < 256 ^ Z.of_nat (length b).
Proof.
  unfold be_value.
  pose proof (horner_bound 256 ltac:(lia) _ (bytes_digits_ok b)) as Hb.
  unfold weight in Hb. now rewrite length_map in Hb.
Qed.

Lemma be_bytes_length n v : length (be_bytes n v) = n.
Proof.
  revert v. induction n; intros; cbn [be_bytes]; auto.
  rewrite length_app, IHn. cbn. lia.
Qed.

Lemma be_value_be_bytes n v :
  be_value (be_bytes n v) = v mod 256 ^ Z.of_nat n.
Proof.
  revert v. induction n as [|n IH]; intros v.
  - cbn. now rewrite Z.mod_1_r.
  - cbn [be_bytes]. unfold be_value in *.
    rewrite map_app, horner_app, IH. cbn [map horner].
    rewrite byte.unsigned_of_Z. unfold byte.wrap.
    rewrite Nat2Z.inj_succ, Z.pow_succ_r by lia.
    change (2 ^ 8) with 256.
    rewrite Z.rem_mul_r by lia.
    pose proof (Z.pow_pos_nonneg 256 (Z.of_nat n) ltac:(lia) ltac:(lia)).
    lia.
Qed.

Lemma map_unsigned_inj a b :
  map byte.unsigned a = map byte.unsigned b -> a = b.
Proof.
  revert b. induction a as [|x a IH]; intros [|y b] Heq; try discriminate.
  - reflexivity.
  - injection Heq as Hx Hab. f_equal; auto using byte.unsigned_inj.
Qed.

Lemma be_bytes_be_value b : be_bytes (length b) (be_value b) = b.
Proof.
  apply map_unsigned_inj, (horner_inj 256); try lia.
  - now rewrite !length_map, be_bytes_length.
  - apply bytes_digits_ok.
  - apply bytes_digits_ok.
  - fold (be_value (be_bytes (length b) (be_value b))). fold (be_value b).
    rewrite be_value_be_bytes. apply Z.mod_small, be_value_bound.
Qed.

(** ** The alphabet *)

Lemma digit_cases (P : Z -> bool) :
  forallb P (map Z.of_nat (seq 0 62)) = true ->
  forall d, 0 <= d < 62 -> P d = true.
Proof.
  intros Hall d Hd. rewrite forallb_forall in Hall. apply Hall.
  apply in_map_iff. exists (Z.to_nat d). split; [lia|].
  apply in_seq. lia.
Qed.

Lemma index_of_Some c l i d :
  index_of c l i = Some d ->
  i <= d < i + Z.of_nat (length l) /\ nth (Z.to_nat (d - i)) l zeroSymbol = c.
Proof.
  revert i. induction l as [|x l IH]; intros i; cbn [index_of]; [discriminate|].
  destruct (Byte.eqb c x) eqn:E.
  - intros [= <-]. apply Byte.byte_dec_bl in E. subst x.
    rewrite Z.sub_diag. cbn [length nth Z.to_nat]. split; [lia | reflexivity].
  - intros Hd. destruct (IH _ Hd) as [Hr Hn]. cbn [length]. split; [lia|].
    replace (Z.to_nat (d - i)) with (S (Z.to_nat (d - (i + 1)))) by lia.
    exact Hn.
Qed.

Lemma index_of_None c l i : index_of c l i = None -> ~ In c l.
Proof.
  revert i. induction l as [|x l IH]; intros i; cbn [index_of In]; [tauto|].
  destruct (Byte.eqb c x) eqn:E; [discriminate|].
  intros Hn [Hx | Hin].
  - subst x. now rewrite (Byte.byte_dec_lb eq_refl) in E.
  - exact (IH _ Hn Hin).
Qed.

Lemma base62Value_spec c d :
  base62Value c = Some d -> 0 <= d < 62 /\ base62Symbol d = c.
Proof.
  intros Hv. apply index_of_Some in Hv. change (length alphabet) with 62%nat in Hv.
  unfold base62Symbol. now rewrite Z.sub_0_r in Hv.
Qed.

Lemma base62Value_Symbol d :
  0 <= d < 62 -> base62Value (base62Symbol d) = Some d.
Proof.
  intros Hd.
  pose (P := fun d => match base62Value (base62Symbol d) with
                      | Some d' => d' =? d
                      | None => false
                      end).
  assert (HP : P d = true) by (apply digit_cases; [vm_compute; reflexivity | exact Hd]).
  unfold P in HP. destruct (base62Value (base62Symbol d)); [|discriminate].
  apply Z.eqb_eq in HP. now subst.
Qed.

(** The ASCII code of the symbol of a digit. *)
Lemma base62Symbol_code d :
  0 <= d < 62 ->
  byte.unsigned (base62Symbol d) =
  if d <? 10 then d + 48 else if d <? 36 then d + 55 else d + 61.
Proof.
  intros Hd. apply Z.eqb_eq.
  apply (digit_cases
           (fun d => byte.unsigned (base62Symbol d) =?
                     (if d <? 10 then d + 48
                      else if d <? 36 then d + 55 else d + 61)));
    [vm_compute; reflexivity | exact Hd].
Qed.

(** The order of the symbols is the order of their values. *)
Lemma base62Symbol_compare d1 d2 :
  0 <= d1 < 62 -> 0 <= d2 < 62 ->
  (byte.unsigned (base62Symbol d1) ?= byte.unsigned (base62Symbol d2)) =
  (d1 ?= d2).
Proof.
  intros H1 H2. rewrite !base62Symbol_code by assumption.
  destruct (Z.compare_spec d1 d2) as [E|L|G];
    [apply Z.compare_eq_iff | apply Z.compare_lt_iff | apply Z.compare_gt_iff];
    repeat match goal with
           | |- context [?a <? ?b] => destruct (Z.ltb_spec a b)
           end; lia.
Qed.

Lemma lex_symbols ds1 ds2 :
  digits_ok 62 ds1 -> digits_ok 62 ds2 ->
  lex (map byte.unsigned (map base62Symbol ds1))
      (map byte.unsigned (map base62Symbol ds2)) = lex ds1 ds2.
Proof.
  intros H1. revert ds2.
  induction H1 as [|x xs Hx _ IH]; intros ds2 H2;
    destruct H2 as [|y ys Hy Hys]; cbn [map lex]; try reflexivity.
  rewrite base62Symbol_compare by assumption.
  destruct (x ?= y); auto.
Qed.

Lemma symbols_digits_map ds :
  digits_ok 62 ds -> symbols_digits (map base62Symbol ds) = Some ds.
Proof.
  induction 1 as [|d ds Hd _ IH]; cbn [map symbols_digits]; [reflexivity|].
  now rewrite base62Value_Symbol, IH.
Qed.

Lemma symbols_digits_spec s ds :
  symbols_digits s = Some ds ->
  s = map base62Symbol ds /\ digits_ok 62 ds /\ length ds = length s.
Proof.
  revert ds. induction s as [|c s IH]; intros ds; cbn [symbols_digits].
  - intros [= <-]. repeat split. constructor.
  - destruct (base62Value c) as [d|] eqn:Ec; [|discriminate].
    destruct (symbols_digits s) as [ds'|]; [|discriminate].
    intros [= <-]. destruct (IH _ eq_refl) as (Hs & Hok & Hlen).
    destruct (base62Value_spec _ _ Ec) as [Hd Hc].
    cbn [map length]. repeat split.
    + now rewrite Hc, <- Hs.
    + now constructor.
    + now rewrite Hlen.
Qed.

Lemma in_alphabet_digits s :
  in_alphabet s -> exists ds, symbols_digits s = Some ds.
Proof.
  induction 1 as [|c s Hc _ [ds IH]]; cbn [symbols_digits]; [now exists []|].
  destruct (base62Value c) as [d|] eqn:Ec.
  - rewrite IH. now exists (d :: ds).
  - now apply index_of_None in Ec.
Qed.

(** ** The encoder *)

Lemma divide62_spec fuel n :
  0 <= n < 2 ^ Z.of_nat fuel ->
  digits_ok 62 (divide62 fuel n) /\ horner 62 0 (rev (divide62 fuel n)) = n.
Proof.
  revert n. induction fuel as [|fuel IH]; intros n Hn.
  - cbn in Hn. cbn. split; [constructor | lia].
  - cbn [divide62]. destruct (Z.eqb_spec n 0) as [-> | Hnz].
    + split; [constructor | reflexivity].
    + rewrite Nat2Z.inj_succ, Z.pow_succ_r in Hn by lia.
      assert (Hq : 0 <= n / 62 < 2 ^ Z.of_nat fuel).
      { split; [apply Z.div_pos; lia|].
        apply Z.div_lt_upper_bound; lia. }
      destruct (IH _ Hq) as [Hok Hval]. split.
      * constructor; [apply Z.mod_pos_bound; lia | exact Hok].
      * cbn [rev]. rewrite horner_app, Hval. cbn [horner].
        pose proof (Z.div_mod n 62). lia.
Qed.

Lemma divide62_length fuel n k :
  0 <= n < 62 ^ Z.of_nat k -> (length (divide62 fuel n) <= k)%nat.
Proof.
  revert n k. induction fuel as [|fuel IH]; intros n k Hn; cbn [divide62].
  - cbn. lia.
  - destruct (Z.eqb_spec n 0) as [-> | Hnz]; [cbn; lia|].
    destruct k as [|k]; [cbn in Hn; lia|].
    rewrite Nat2Z.inj_succ, Z.pow_succ_r in Hn by lia.
    cbn [length]. apply le_n_S, IH.
    split; [apply Z.div_pos; lia|].
    apply Z.div_lt_upper_bound; lia.
Qed.

Lemma remainders62_spec n :
  0 <= n ->
  digits_ok 62 (remainders62 n) /\ horner 62 0 (rev (remainders62 n)) = n.
Proof.
  intros Hn. apply divide62_spec.
  rewrite Nat2Z.inj_succ, Z2Nat.id by apply Z.log2_nonneg.
  destruct (Z.eq_dec n 0) as [-> | Hnz]; [cbn; lia|].
  pose proof (Z.log2_spec n). lia.
Qed.

Lemma digits_ok_app B xs ys :
  digits_ok B xs -> digits_ok B ys -> digits_ok B (xs ++ ys).
Proof. intros; now apply Forall_app. Qed.

Lemma digits_ok_rev B xs : digits_ok B xs -> digits_ok B (rev xs).
Proof. apply Forall_rev. Qed.

Lemma digits_ok_zeros B k : 0 < B -> digits_ok B (repeat 0 k).
Proof. intros HB. induction k; cbn; constructor; auto; lia. Qed.

(** The text of a value below [62^27] is the 27 symbols of its base-62
    digits. *)
Lemma encodeBase62_digits src :
  be_value src < 62 ^ 27 ->
  exists ds,
    encodeBase62 src = map base62Symbol ds /\ length ds = 27%nat /\
    digits_ok 62 ds /\ horner 62 0 ds = be_value src.
Proof.
  intros Hlt. pose proof (be_value_bound src) as [Hge _].
  destruct (remainders62_spec _ Hge) as [Hok Hval].
  assert (Hlen : (length (remainders62 (be_value src)) <= 27)%nat).
  { apply divide62_length. change (Z.of_nat 27) with 27. lia. }
  set (r := remainders62 (be_value src)) in *.
  exists (repeat 0 (27 - length r) ++ rev r). repeat split.
  - unfold encodeBase62. fold r.
    rewrite map_app, map_repeat, map_rev, length_rev, length_map.
    reflexivity.
  - rewrite length_app, repeat_length, length_rev. lia.
  - apply digits_ok_app; [apply digits_ok_zeros; lia | now apply digits_ok_rev].
  - now rewrite horner_zeros.
Qed.

Lemma be_value_20 src :
  length src = 20%nat -> 0 <= be_value src < 2 ^ 160.
Proof.
  intros Hlen. pose proof (be_value_bound src) as Hb. rewrite Hlen in Hb.
  change (256 ^ Z.of_nat 20) with (2 ^ 160) in Hb. exact Hb.
Qed.

(** ** The decoder *)

Lemma accumulate62_digits s acc :
  0 <= acc < 2 ^ 160 ->
  accumulate62 acc s =
  match symbols_digits s with
  | None => None
  | Some ds =>
      if 2 ^ 160 <=? horner 62 acc ds then None else Some (horner 62 acc ds)
  end.
Proof.
  revert acc. induction s as [|c s IH]; intros acc Hacc;
    cbn [accumulate62 symbols_digits horner].
  - destruct (Z.leb_spec (2 ^ 160) acc); [lia | reflexivity].
  - destruct (base62Value c) as [d|] eqn:Ec; [|reflexivity].
    destruct (base62Value_spec _ _ Ec) as [Hd _].
    destruct (Z.leb_spec (2 ^ 160) (acc * 62 + d)) as [Hov | Hfit].
    + destruct (symbols_digits s) as [ds|] eqn:Es; [|reflexivity].
      cbn [horner]. destruct (symbols_digits_spec _ _ Es) as (_ & Hok & _).
      pose proof (horner_ge 62 ltac:(lia) (acc * 62 + d) ds ltac:(lia) Hok).
      destruct (Z.leb_spec (2 ^ 160) (horner 62 (acc * 62 + d) ds));
        [reflexivity | lia].
    + rewrite IH by lia. now destruct (symbols_digits s).
Qed.

(** ** [Parse] and [String] through the digits *)

Lemma String_encode i : String i = encodeBase62 i.
Proof. reflexivity. Qed.

Lemma String_digits i :
  length i = 20%nat ->
  exists ds,
    String i = map base62Symbol ds /\ length ds = 27%nat /\
    digits_ok 62 ds /\ horner 62 0 ds = be_value i.
Proof.
  intros Hlen. rewrite String_encode. apply encodeBase62_digits.
  pose proof (be_value_20 i Hlen).
  assert (2 ^ 160 < 62 ^ 27) by reflexivity. lia.
Qed.

Lemma String_length i : length i = 20%nat -> length (String i) = 27%nat.
Proof.
  intros Hlen. destruct (String_digits i Hlen) as (ds & -> & Hl & _).
  now rewrite length_map.
Qed.

Lemma FromBytes_20 b : length b = 20%nat -> FromBytes b = (b, None).
Proof.
  intros Hlen. unfold FromBytes. change byteLength with 20%nat.
  rewrite Hlen. cbn [Nat.eqb negb]. now rewrite copy_full.
Qed.

Lemma Parse_27 s :
  length s = 27%nat ->
  Parse s =
  match accumulate62 0 s with
  | None => (Nil, Some errStrValue)
  | Some v => (be_bytes 20 v, None)
  end.
Proof.
  intros Hlen. unfold Parse, fastDecodeBase62.
  change stringEncodedLength with 27%nat. change byteLength with 20%nat.
  rewrite Hlen. cbn [Nat.eqb negb].
  rewrite (copy_full (repeat x00 27) s) by now rewrite repeat_length.
  rewrite Hlen. cbn [Nat.eqb negb].
  destruct (accumulate62 0 s) as [v|]; [|reflexivity].
  rewrite copy_full by now rewrite repeat_length, be_bytes_length.
  apply FromBytes_20, be_bytes_length.
Qed.

Lemma Parse_digits s ds :
  length s = 27%nat -> symbols_digits s = Some ds ->
  Parse s =
  if 2 ^ 160 <=? horner 62 0 ds then (Nil, Some errStrValue)
  else (be_bytes 20 (horner 62 0 ds), None).
Proof.
  intros Hlen Hds. rewrite Parse_27 by assumption.
  rewrite accumulate62_digits, Hds by lia.
  now destruct (2 ^ 160 <=? horner 62 0 ds).
Qed.

(** A successful [Parse] read 27 symbols whose number fits 160 bits. *)
Lemma Parse_ok_inv s id :
  Parse s = (id, None) ->
  exists ds,
    length s = 27%nat /\ symbols_digits s = Some ds /\
    horner 62 0 ds < 2 ^ 160 /\ id = be_bytes 20 (horner 62 0 ds).
Proof.
  intros HP. destruct (Nat.eq_dec (length s) 27) as [Hlen | Hlen].
  - rewrite Parse_27, accumulate62_digits in HP by (assumption || lia).
    destruct (symbols_digits s) as [ds|]; [|discriminate].
    exists ds. destruct (Z.leb_spec (2 ^ 160) (horner 62 0 ds));
      [discriminate|]. injection HP as <-. auto.
  - unfold Parse in HP. change stringEncodedLength with 27%nat in HP.
    apply Nat.eqb_neq in Hlen. rewrite Hlen in HP. discriminate.
Qed.

Lemma strcmp_digits s t ds dt :
  symbols_digits s = Some ds -> symbols_digits t = Some dt ->
  length s = length t ->
  strcmp s t = int_of_comparison (horner 62 0 ds ?= horner 62 0 dt).
Proof.
  intros Hs Ht Hlen.
  destruct (symbols_digits_spec _ _ Hs) as (-> & Hoks & Hls).
  destruct (symbols_digits_spec _ _ Ht) as (-> & Hokt & Hlt).
  unfold strcmp. rewrite bytes_Compare_lex, lex_symbols by assumption.
  rewrite (lex_horner 62) by (lia || assumption). reflexivity.
Qed.

Lemma maxStringEncoded_digits :
  exists dmax,
    symbols_digits maxStringEncoded = Some dmax /\
    horner 62 0 dmax = 2 ^ 160 - 1.
Proof.
  destruct (symbols_digits maxStringEncoded) as [dmax|] eqn:E;
    [|vm_compute in E; discriminate].
  exists dmax. split; [reflexivity|].
  vm_compute in E. injection E as <-. vm_compute. reflexivity.
Qed.

Lemma in_alphabet_check s :
  forallb (fun c => existsb (Byte.eqb c) alphabet) s = true -> in_alphabet s.
Proof.
  intros Hall. apply Forall_forall. intros c Hc.
  rewrite forallb_forall in Hall. specialize (Hall c Hc).
  apply existsb_exists in Hall as (x & Hx & Heq).
  apply Byte.byte_dec_bl in Heq. now subst.
Qed.

(** ** The codec's properties *)

(** C1. For all 20-byte identifiers [a] and [b], the sign of
    [Compare a b] is the sign of the byte-wise comparison of [String a]
    and [String b], and both are the order of the two 160-bit big-endian
    integers. *)
Theorem order_preservation (a b : XTID) :
  length a = 20%nat -> length b = 20%nat ->
  Z.sgn (Compare a b) = Z.sgn (strcmp (String a) (String b)) /\
  Compare a b = int_of_comparison (be_value a ?= be_value b) /\
  strcmp (String a) (String b) = int_of_comparison (be_value a ?= be_value b).
Proof.
  intros Ha Hb.
  assert (HC : Compare a b = int_of_comparison (be_value a ?= be_value b)).
  { unfold Compare, be_value. rewrite bytes_Compare_lex.
    rewrite (lex_horner 256); auto using bytes_digits_ok; try lia.
    now rewrite !length_map, Ha, Hb. }
  assert (HS : strcmp (String a) (String b) =
               int_of_comparison (be_value a ?= be_value b)).
  { destruct (String_digits a Ha) as (da & Ea & Hla & Hoka & Hva).
    destruct (String_digits b Hb) as (db & Eb & Hlb & Hokb & Hvb).
    rewrite Ea, Eb, <- Hva, <- Hvb.
    apply strcmp_digits; auto using symbols_digits_map.
    now rewrite !length_map, Hla, Hlb. }
  rewrite HC, HS. auto.
Qed.

Lemma order_preservation_witness :
  Z.sgn (Compare Nil Max) = Z.sgn (strcmp (String Nil) (String Max)) /\
  Compare Nil Max = int_of_comparison (be_value Nil ?= be_value Max) /\
  strcmp (String Nil) (String Max) =
  int_of_comparison (be_value Nil ?= be_value Max).
Proof. apply (order_preservation Nil Max); reflexivity. Defined.

(** C2. For every 20-byte value [b], parsing the text of the identifier
    made of [b] succeeds and gives back [b]; and every 27-character string
    in range (all its characters in the alphabet, not above the canonical
    maximum) parses to an identifier whose text is that string, as does any
    string that parses at all. *)
Theorem round_trip (b s : list byte) :
  (length b = 20%nat -> Parse (String (FromBytesOrNil b)) = (b, None)) /\
  (length s = 27%nat -> in_alphabet s -> strcmp s maxStringEncoded <= 0 ->
   exists id, Parse s = (id, None) /\ length id = 20%nat /\ String id = s) /\
  (forall id, Parse s = (id, None) -> String id = s).
Proof.
  assert (Hback : forall id, Parse s = (id, None) -> String id = s).
  { intros id HP.
    destruct (Parse_ok_inv _ _ HP) as (ds & Hlen & Hds & Hfit & ->).
    destruct (symbols_digits_spec _ _ Hds) as (-> & Hok & Hl).
    pose proof (horner_bound 62 ltac:(lia) ds Hok) as [Hge _].
    destruct (String_digits (be_bytes 20 (horner 62 0 ds)))
      as (ds' & -> & Hl' & Hok' & Hv'); [apply be_bytes_length|].
    rewrite be_value_be_bytes in Hv'.
    change (256 ^ Z.of_nat 20) with (2 ^ 160) in Hv'.
    rewrite Z.mod_small in Hv' by lia.
    f_equal. apply (horner_inj 62); auto; lia. }
  split; [|split; [|exact Hback]].
  - intros Hb. unfold FromBytesOrNil. rewrite FromBytes_20 by assumption.
    destruct (String_digits b Hb) as (ds & -> & Hl & Hok & Hv).
    rewrite (Parse_digits _ ds), Hv;
      [| now rewrite length_map | now apply symbols_digits_map].
    pose proof (be_value_20 b Hb).
    destruct (Z.leb_spec (2 ^ 160) (be_value b)); [lia|].
    now rewrite <- Hb, be_bytes_be_value.
  - intros Hlen Halpha Hle.
    destruct (in_alphabet_digits s Halpha) as (ds & Hds).
    destruct maxStringEncoded_digits as (dmax & Hmax & Hvmax).
    rewrite (strcmp_digits _ _ _ _ Hds Hmax), Hvmax in Hle
      by (now rewrite Hlen).
    assert (Hfit : horner 62 0 ds < 2 ^ 160).
    { destruct (Z.compare_spec (horner 62 0 ds) (2 ^ 160 - 1));
        cbn in Hle; lia. }
    exists (be_bytes 20 (horner 62 0 ds)).
    assert (HP : Parse s = (be_bytes 20 (horner 62 0 ds), None)).
    { rewrite (Parse_digits _ ds) by assumption.
      destruct (Z.leb_spec (2 ^ 160) (horner 62 0 ds)); [lia | reflexivity]. }
    split; [exact HP | split; [apply be_bytes_length | exact (Hback _ HP)]].
Qed.

Lemma round_trip_witness :
  Parse (String (FromBytesOrNil Max)) = (Max, None) /\
  (exists id, Parse maxStringEncoded = (id, None) /\ length id = 20%nat /\
              String id = maxStringEncoded) /\
  (forall id, Parse maxStringEncoded = (id, None) ->
              String id = maxStringEncoded).
Proof.
  destruct (round_trip Max maxStringEncoded) as (H1 & H2 & H3).
  split; [apply H1; reflexivity | split; [apply H2 | exact H3]].
  - reflexivity.
  - apply in_alphabet_check. vm_compute. reflexivity.
  - vm_compute. discriminate.
Defined.

(** C3. Every 27-character string of alphabet symbols that is
    lexicographically greater than the canonical maximum string fails to
    parse: [Parse] returns [Nil] and the string-value error. *)
Theorem overflow_rejection (s : list byte) :
  length s = 27%nat -> in_alphabet s -> 0 < strcmp s maxStringEncoded ->
  Parse s = (Nil, Some errStrValue).
Proof.
  intros Hlen Halpha Hgt.
  destruct (in_alphabet_digits s Halpha) as (ds & Hds).
  destruct maxStringEncoded_digits as (dmax & Hmax & Hvmax).
  rewrite (strcmp_digits _ _ _ _ Hds Hmax), Hvmax in Hgt
    by (now rewrite Hlen).
  rewrite (Parse_digits _ ds) by assumption.
  destruct (Z.compare_spec (horner 62 0 ds) (2 ^ 160 - 1));
    cbn in Hgt; try lia.
  destruct (Z.leb_spec (2 ^ 160) (horner 62 0 ds)); [reflexivity | lia].
Qed.

Lemma overflow_rejection_witness :
  Parse (list_byte_of_string "aWgEPTl1tmebfsQzFP4bxwgy80W") =
  (Nil, Some errStrValue).
Proof.
  apply overflow_rejection.
  - reflexivity.
  - apply in_alphabet_check. vm_compute. reflexivity.
  - vm_compute. reflexivity.
Defined.

(** C4. [Nil] has the text of 27 zero symbols, which parses back to
    [Nil]; [Max] has the canonical maximum text, which parses back to
    [Max]. *)
Theorem boundary_values :
  String Nil = minStringEncoded /\
  minStringEncoded = repeat zeroSymbol 27 /\
  Parse minStringEncoded = (Nil, None) /\
  String Max = maxStringEncoded /\
  Parse maxStringEncoded = (Max, None).
Proof. repeat split; vm_compute; reflexivity. Qed.

(** C6. A string whose length is not 27 does not parse: [Parse] returns
    [Nil] and the string-size error.  A byte slice whose length is not 20
    is refused by [FromBytes], which returns [Nil] and the size error. *)
Theorem length_rejection (s b : list byte) :
  (length s <> 27%nat -> Parse s = (Nil, Some errStrSize)) /\
  (length b <> 20%nat -> FromBytes b = (Nil, Some errSize)).
Proof.
  split; intros Hlen; apply Nat.eqb_neq in Hlen.
  - unfold Parse. change stringEncodedLength with 27%nat. now rewrite Hlen.
  - unfold FromBytes. change byteLength with 20%nat. now rewrite Hlen.
Qed.

Lemma length_rejection_witness :
  Parse (repeat x30 26) = (Nil, Some errStrSize) /\
  FromBytes (repeat x00 21) = (Nil, Some errSize).
Proof.
  destruct (length_rejection (repeat x30 26) (repeat x00 21)) as [H1 H2].
  split; [apply H1 | apply H2]; vm_compute; discriminate.
Defined.

(** ** Big-endian fields *)

(** Settles one bit of a word assembled from bytes, once the byte the bit
    lies in is known. *)
Ltac bit_of_byte :=
  repeat match goal with
    | |- context [Z.testbit (Z.shiftr ?a ?n) ?m] =>
        first [ rewrite (Z.shiftr_spec a n m) by lia
              | rewrite (Z.testbit_neg_r (Z.shiftr a n) m) by lia ]
    end;
  repeat match goal with
    | |- context [?a <? ?b] =>
        first [ replace (a <? b) with true by lia
              | replace (a <? b) with false by lia ]
    end;
  cbn [andb orb];
  rewrite ?andb_false_r, ?orb_false_r; cbn [andb orb];
  try reflexivity; try (f_equal; lia).

Lemma Uint16_PutUint16 b v : Uint16 (PutUint16 b v) = v mod 2 ^ 16.
Proof.
  unfold Uint16, PutUint16, splice. cbn [firstn app nth].
  rewrite !byte.unsigned_of_Z. unfold byte.wrap.
  apply Z.bits_inj'. intros i Hi.
  rewrite !Z.lor_spec, ?Z.shiftl_spec, !Z.testbit_mod_pow2 by lia.
  assert (Hcase : i < 8 \/ 8 <= i < 16 \/ 16 <= i) by lia.
  destruct Hcase as [Hc | [Hc | Hc]]; bit_of_byte.
Qed.

Lemma Uint64_PutUint64 b v : Uint64 (PutUint64 b v) = v mod 2 ^ 64.
Proof.
  unfold Uint64, PutUint64, splice. cbn [firstn app nth].
  rewrite !byte.unsigned_of_Z. unfold byte.wrap.
  apply Z.bits_inj'. intros i Hi.
  rewrite !Z.lor_spec, ?Z.shiftl_spec, !Z.testbit_mod_pow2 by lia.
  assert (Hcase : i < 8 \/ 8 <= i < 16 \/ 16 <= i < 24 \/ 24 <= i < 32 \/
                  32 <= i < 40 \/ 40 <= i < 48 \/ 48 <= i < 56 \/
                  56 <= i < 64 \/ 64 <= i) by lia.
  destruct Hcase as [Hc | [Hc | [Hc | [Hc | [Hc | [Hc | [Hc | [Hc | Hc]]]]]]]];
    bit_of_byte.
Qed.

(** What [PutUint64] and [PutUint16] store is the big-endian form. *)
Lemma PutUint64_be b v : firstn 8 (PutUint64 b v) = be_bytes 8 v.
Proof.
  unfold PutUint64, splice. cbn [firstn app be_bytes].
  rewrite !Z.shiftr_div_pow2 by lia.
  rewrite !Z.div_div by lia.
  reflexivity.
Qed.

Lemma PutUint16_be b v : firstn 2 (PutUint16 b v) = be_bytes 2 v.
Proof.
  unfold PutUint16, splice. cbn [firstn app be_bytes].
  rewrite !Z.shiftr_div_pow2 by lia.
  reflexivity.
Qed.

Lemma to_uint64_range z : 0 <= to_uint64 z < 2 ^ 64.
Proof. unfold to_uint64. apply Z.mod_pos_bound. lia. Qed.

(** ** Reading from the entropy source *)

Section ReadFacts.

Context {R : Type} `{Reader R}.

Lemma readLoop_length fuel r buf min n err buf' n' err' r' :
  readLoop fuel r buf min n err = Some (buf', n', err', r') ->
  length buf' = length buf.
Proof.
  revert r buf n err.
  induction fuel as [|fuel IH]; intros r buf n err; cbn [readLoop];
    destruct ((n <? min)%nat && _); try discriminate;
    try (intros [= <- _ _ _]; reflexivity).
  destruct (Read r (length buf - n)) as [[d e1] r1].
  intros Hloop. apply IH in Hloop. rewrite Hloop.
  destruct (Nat.le_gt_cases n (length buf)) as [Hn | Hn].
  - apply splice_length. rewrite length_firstn. lia.
  - replace (length buf - n)%nat with 0%nat by lia.
    cbn [firstn]. now rewrite splice_nil.
Qed.

Lemma ReadFull_length fuel r buf buf' n err r' :
  ReadFull fuel r buf = Some (buf', n, err, r') ->
  length buf' = length buf.
Proof.
  unfold ReadFull, ReadAtLeast. rewrite Nat.ltb_irrefl.
  destruct (readLoop fuel r buf (length buf) 0 None)
    as [[[[b1 n1] e1] r1]|] eqn:Hloop; [|discriminate].
  apply readLoop_length in Hloop.
  destruct (length buf <=? n1)%nat; [intros [= <- _ _ _]; exact Hloop|].
  destruct e1 as [[]|]; try (intros [= <- _ _ _]; exact Hloop).
  destruct (0 <? n1)%nat; intros [= <- _ _ _]; exact Hloop.
Qed.

(** The fuel only cuts the loop: more of it does not change a result. *)
Lemma readLoop_more_fuel fuel k r buf min n err res :
  readLoop fuel r buf min n err = Some res ->
  readLoop (fuel + k) r buf min n err = Some res.
Proof.
  revert r buf n err.
  induction fuel as [|fuel IH]; intros r buf n err; cbn [readLoop Nat.add].
  - destruct ((n <? min)%nat && _) eqn:Hcond; [discriminate|].
    intros <-. destruct k; cbn [readLoop]; now rewrite Hcond.
  - destruct ((n <? min)%nat && _); [|auto].
    destruct (Read r (length buf - n)) as [[d e1] r1]. apply IH.
Qed.

Lemma Make_more_fuel fuel k source t typ res :
  Make fuel source t typ = Some res ->
  Make (fuel + k) source t typ = Some res.
Proof.
  unfold Make, ReadFull, ReadAtLeast.
  destruct (length (slice Nil payloadStart byteLength) <?
            length (slice Nil payloadStart byteLength))%nat; [auto|].
  destruct (readLoop fuel source _ _ 0 None) as [res'|] eqn:Hloop;
    [|discriminate].
  now rewrite (readLoop_more_fuel _ k _ _ _ _ _ _ Hloop).
Qed.

(** An identifier that [Make] returns without an error is the eight
    bytes of the time stamp, the two bytes of the type and the ten bytes
    that were read. *)
Lemma Make_ok_layout fuel source t typ id source' :
  Make fuel source t typ = Some (id, None, source') ->
  exists payload,
    length payload = 10%nat /\
    id = firstn 8 (PutUint64 (repeat x00 8) (timeToCorrectedUTCTimestamp t))
         ++ firstn 2 (PutUint16 (repeat x00 2) typ) ++ payload.
Proof.
  unfold Make.
  destruct (ReadFull fuel source (slice Nil payloadStart byteLength))
    as [[[[payload n] err] r1]|] eqn:Hread; [|discriminate].
  apply ReadFull_length in Hread.
  destruct err; [discriminate|]. intros [= <- _].
  exists payload. split; [exact Hread|].
  change (length (slice Nil payloadStart byteLength)) with 10%nat in Hread.
  do 10 (destruct payload as [|? payload]; [discriminate|]).
  destruct payload; [|discriminate].
  reflexivity.
Qed.

End ReadFacts.

(** ** Minting *)

(** C5. Whenever reading the entropy source fails, [Make] returns the
    [Nil] identifier together with the error of the read, whatever bytes
    the read had stored before failing; and an identifier that comes with
    an error is always [Nil]. *)
Theorem Make_read_failure {R : Type} `{Reader R}
    (fuel : nat) (source : R) (t : Time) (typ : Z) :
  (forall payload n e source',
      ReadFull fuel source (slice Nil payloadStart byteLength) =
        Some (payload, n, Some e, source') ->
      Make fuel source t typ = Some (Nil, Some e, source')) /\
  (forall id e source',
      Make fuel source t typ = Some (id, Some e, source') ->
      id = Nil /\
      exists payload n,
        ReadFull fuel source (slice Nil payloadStart byteLength) =
          Some (payload, n, Some e, source')).
Proof.
  split.
  - intros payload n e source' Hread. unfold Make. now rewrite Hread.
  - intros id e source'. unfold Make.
    destruct (ReadFull fuel source (slice Nil payloadStart byteLength))
      as [[[[payload n] err] r1]|]; [|discriminate].
    destruct err as [e1|]; [|discriminate].
    intros [= <- <- <-]. split; [reflexivity|]. now exists payload, n.
Qed.

Lemma Make_read_failure_witness :
  let source := chunkReader [x41; x42; x43] (ErrIO "entropy exhausted") in
  let t := {| unixSec := 1704067200; nsec := 1000 |} in
  @ReadFull nat source 5 2%nat (slice Nil payloadStart byteLength) =
    Some ([x41; x42; x43; x41; x42; x43; x00; x00; x00; x00], 6%nat,
          Some (ErrIO "entropy exhausted"), 0%nat) /\
  @Make nat source 5 2%nat t 7 =
    Some (Nil, Some (ErrIO "entropy exhausted"), 0%nat).
Proof.
  intros source t.
  assert (Hread :
    @ReadFull nat source 5 2%nat (slice Nil payloadStart byteLength) =
      Some ([x41; x42; x43; x41; x42; x43; x00; x00; x00; x00], 6%nat,
            Some (ErrIO "entropy exhausted"), 0%nat)) by reflexivity.
  split; [exact Hread|].
  exact (proj1 (@Make_read_failure nat source 5 2%nat t 7) _ _ _ _ Hread).
Defined.

(** C7. For every time [t] and every [uint16] value [typ], an identifier
    that [Make] returns without an error has [Timestamp] equal to
    [uint64(t.UnixMicro())] and [Type] equal to [typ]; its first eight
    bytes are the big-endian form of the former, the next two of the
    latter. *)
Theorem Make_timestamp_type {R : Type} `{Reader R}
    (fuel : nat) (source : R) (t : Time) (typ : Z) (id : XTID) (source' : R) :
  0 <= typ < 2 ^ 16 ->
  Make fuel source t typ = Some (id, None, source') ->
  Timestamp id = to_uint64 (UnixMicro t) /\
  Type_ id = typ /\
  length id = 20%nat /\
  slice id 0 timestampLengthInBytes = be_bytes 8 (to_uint64 (UnixMicro t)) /\
  slice id timestampLengthInBytes payloadStart = be_bytes 2 typ.
Proof.
  intros Htyp HM.
  destruct (Make_ok_layout _ _ _ _ _ _ HM) as (payload & Hlen & ->).
  unfold timeToCorrectedUTCTimestamp.
  set (ts := to_uint64 (UnixMicro t)).
  pose proof (to_uint64_range (UnixMicro t)) as Hts. fold ts in Hts.
  assert (H8 : forall rest : list byte,
             slice (firstn 8 (PutUint64 (repeat x00 8) ts) ++ rest) 0
                   timestampLengthInBytes = firstn 8 (PutUint64 [] ts))
    by reflexivity.
  assert (H2 : forall rest : list byte,
             slice (firstn 8 (PutUint64 (repeat x00 8) ts) ++
                    firstn 2 (PutUint16 (repeat x00 2) typ) ++ rest)
                   timestampLengthInBytes payloadStart =
             firstn 2 (PutUint16 [] typ))
    by reflexivity.
  unfold Timestamp, Type_. rewrite H8, H2.
  change (firstn 8 (PutUint64 [] ts)) with (PutUint64 [] ts) at 1.
  change (firstn 2 (PutUint16 [] typ)) with (PutUint16 [] typ) at 1.
  rewrite Uint64_PutUint64, Uint16_PutUint16, !Z.mod_small by lia.
  split; [reflexivity | split; [reflexivity | split; [| split]]].
  - rewrite PutUint64_be, PutUint16_be, !length_app, !be_bytes_length, Hlen.
    reflexivity.
  - apply PutUint64_be.
  - apply PutUint16_be.
Qed.

Lemma Make_timestamp_type_witness :
  let source := chunkReader [x41; x42; x43; x44] EOF in
  let t := {| unixSec := 1704067200; nsec := 1000 |} in
  exists id,
    @Make nat source 5 3%nat t 7 = Some (id, None, 0%nat) /\
    Timestamp id = 1704067200000001 /\ Type_ id = 7.
Proof.
  intros source t.
  exists [x00; x06; x0d; xd7; x10; x21; x20; x01; x00; x07;
          x41; x42; x43; x44; x41; x42; x43; x44; x41; x42].
  assert (HM : @Make nat source 5 3%nat t 7 =
               Some ([x00; x06; x0d; xd7; x10; x21; x20; x01; x00; x07;
                      x41; x42; x43; x44; x41; x42; x43; x44; x41; x42],
                     None, 0%nat)) by (vm_compute; reflexivity).
  split; [exact HM|].
  destruct (@Make_timestamp_type nat source 5 3%nat t 7 _ _
              ltac:(lia) HM) as (Hts & Hty & _).
  split; [exact Hts | exact Hty].
Defined.

(** ** Serialization adapters *)

Lemma quoted_neq s : s <> quoted s.
Proof.
  intros Heq. apply (f_equal (@length byte)) in Heq.
  unfold quoted in Heq. cbn [length] in Heq.
  rewrite length_app in Heq. cbn [length] in Heq. lia.
Qed.

(** C8. What [MarshalJSON] returns for an identifier is the text form
    itself, 27 characters for a 20-byte identifier, and not that text
    enclosed in quotation marks; for [Nil] it is the 27 zero symbols. *)
Theorem MarshalJSON_not_quoted (i : XTID) :
  MarshalJSON i = (String i, None) /\
  fst (MarshalJSON i) <> quoted (String i) /\
  MarshalJSON Nil = (minStringEncoded, None) /\
  length (fst (MarshalJSON Nil)) = 27%nat.
Proof.
  split; [reflexivity|]. split; [apply quoted_neq|].
  split; vm_compute; reflexivity.
Qed.

(** C9. [scan], which [UnmarshalJSON] and [Scan] call, sets the receiver
    to [Nil] without an error for an input of length 0, goes through the
    binary parse for length 20 and through the text parse for length 27,
    and returns the size error, the receiver untouched, for every other
    length. *)
Theorem scan_by_length (i : XTID) (b : list byte) :
  UnmarshalJSON i b = scan i b /\
  Scan i (any_bytes b) = scan i b /\
  Scan i (any_string b) = scan i b /\
  Scan i any_nil = (Nil, None) /\
  (length b = 0%nat -> scan i b = (Nil, None)) /\
  (length b = 20%nat ->
   scan i b = UnmarshalBinary i b /\ scan i b = (b, None)) /\
  (length b = 27%nat ->
   scan i b = UnmarshalText i b /\
   scan i b = match Parse b with
              | (_, Some err) => (i, Some err)
              | (id, None) => (id, None)
              end) /\
  (length b <> 0%nat -> length b <> 20%nat -> length b <> 27%nat ->
   scan i b = (i, Some errSize)).
Proof.
  repeat (split; [reflexivity|]).
  split; [|split; [|split]].
  - intros Hlen. unfold scan. now rewrite Hlen.
  - intros Hlen. unfold scan. rewrite Hlen. split; [reflexivity|].
    unfold UnmarshalBinary. now rewrite FromBytes_20.
  - intros Hlen. unfold scan. rewrite Hlen. split; reflexivity.
  - intros H0 H20 H27. unfold scan.
    do 28 (destruct b as [|? b]; [cbn in *; congruence|]).
    reflexivity.
Qed.

Lemma scan_by_length_witness :
  scan Max [] = (Nil, None) /\
  scan Max (repeat x01 20) = (repeat x01 20, None) /\
  scan Nil maxStringEncoded = (Max, None) /\
  scan Max (repeat x30 21) = (Max, Some errSize).
Proof.
  split; [|split; [|split]].
  - apply (scan_by_length Max []). reflexivity.
  - apply (scan_by_length Max (repeat x01 20)). reflexivity.
  - destruct (scan_by_length Nil maxStringEncoded)
      as (_ & _ & _ & _ & _ & _ & H27 & _).
    destruct (H27 eq_refl) as [_ ->]. vm_compute. reflexivity.
  - apply (scan_by_length Max (repeat x30 21)); vm_compute; discriminate.
Defined.

(** C10. When the input does not parse, [UnmarshalText], [Set] and
    [UnmarshalBinary] return the error of the parse and the receiver keeps
    its value; the receiver takes a new value, the parsed identifier, only
    when the parse succeeds. *)
Theorem unmarshal_receiver (i : XTID) (b : list byte) :
  (forall e, snd (Parse b) = Some e ->
             UnmarshalText i b = (i, Some e) /\ Set_ i b = (i, Some e)) /\
  (forall e, snd (FromBytes b) = Some e ->
             UnmarshalBinary i b = (i, Some e)) /\
  (forall id, Parse b = (id, None) ->
              UnmarshalText i b = (id, None) /\ Set_ i b = (id, None)) /\
  (forall id, FromBytes b = (id, None) ->
              UnmarshalBinary i b = (id, None)).
Proof.
  unfold Set_, UnmarshalText, UnmarshalBinary.
  split; [|split; [|split]].
  - intros e. destruct (Parse b) as [id [e'|]]; cbn [snd];
      intros [= ->]. auto.
  - intros e. destruct (FromBytes b) as [id [e'|]]; cbn [snd];
      intros [= ->]. auto.
  - intros id ->. auto.
  - intros id ->. auto.
Qed.

Lemma unmarshal_receiver_witness :
  (UnmarshalText Max (repeat x30 26) = (Max, Some errStrSize) /\
   Set_ Max (repeat x30 26) = (Max, Some errStrSize)) /\
  UnmarshalBinary Max (repeat x30 26) = (Max, Some errSize) /\
  (UnmarshalText Max minStringEncoded = (Nil, None) /\
   Set_ Max minStringEncoded = (Nil, None)) /\
  UnmarshalBinary Max Nil = (Nil, None).
Proof.
  split; [|split; [|split]].
  - apply (unmarshal_receiver Max (repeat x30 26)). reflexivity.
  - apply (unmarshal_receiver Max (repeat x30 26)). reflexivity.
  - apply (unmarshal_receiver Max minStringEncoded). vm_compute. reflexivity.
  - apply (unmarshal_receiver Max Nil). reflexivity.
Defined.

(* ------------------------------------------------------------------ *)
(** * Part III: further properties of the code                         *)
(* ------------------------------------------------------------------ *)

(** ** The order of identifiers *)

Lemma bytes_Compare_value a b :
  length a = length b ->
  bytes_Compare a b = int_of_comparison (be_value a ?= be_value b).
Proof.
  intros Hlen. unfold be_value. rewrite bytes_Compare_lex.
  rewrite (lex_horner 256); auto using bytes_digits_ok; try lia.
  now rewrite !length_map.
Qed.

Lemma bytes_Compare_refl a : bytes_Compare a a = 0.
Proof.
  induction a as [|x a IH]; cbn [bytes_Compare]; [reflexivity|].
  now rewrite Z.ltb_irrefl.
Qed.

Lemma bytes_Compare_zero a b : bytes_Compare a b = 0 -> a = b.
Proof.
  revert b. induction a as [|x a IH]; intros [|y b]; cbn [bytes_Compare];
    try discriminate; auto.
  destruct (Z.ltb_spec (byte.unsigned x) (byte.unsigned y)); [discriminate|].
  destruct (Z.ltb_spec (byte.unsigned y) (byte.unsigned x)); [discriminate|].
  intros Hrest. f_equal; [apply byte.unsigned_inj; lia | auto].
Qed.

Lemma bytes_Compare_opp a b : bytes_Compare b a = - bytes_Compare a b.
Proof.
  revert b. induction a as [|x a IH]; intros [|y b]; cbn [bytes_Compare];
    try reflexivity.
  destruct (Z.ltb_spec (byte.unsigned x) (byte.unsigned y));
    destruct (Z.ltb_spec (byte.unsigned y) (byte.unsigned x));
    try reflexivity; try lia. apply IH.
Qed.

Lemma bytes_Compare_range a b :
  bytes_Compare a b = -1 \/ bytes_Compare a b = 0 \/ bytes_Compare a b = 1.
Proof.
  revert b. induction a as [|x a IH]; intros [|y b]; cbn [bytes_Compare];
    auto.
  destruct (byte.unsigned x <? byte.unsigned y); auto.
  destruct (byte.unsigned y <? byte.unsigned x); auto.
Qed.

(** With prefixes of one length, the prefixes decide unless they are
    equal. *)
Lemma bytes_Compare_app x1 x2 y1 y2 :
  length x1 = length y1 ->
  bytes_Compare (x1 ++ x2) (y1 ++ y2) =
  if bytes_Compare x1 y1 =? 0 then bytes_Compare x2 y2
  else bytes_Compare x1 y1.
Proof.
  revert y1. induction x1 as [|x x1 IH]; intros [|y y1] Hlen;
    try discriminate; cbn [app bytes_Compare]; [reflexivity|].
  destruct (byte.unsigned x <? byte.unsigned y); [reflexivity|].
  destruct (byte.unsigned y <? byte.unsigned x); [reflexivity|].
  apply IH. now injection Hlen.
Qed.

(** X1. [Compare] is a total order on identifiers: it is 0 exactly on
    equal identifiers, swapping the arguments negates it, it only takes the
    values -1, 0 and 1, and it is transitive on 20-byte identifiers. *)
Theorem Compare_total_order (a b c : XTID) :
  (Compare a b = 0 <-> a = b) /\
  Compare b a = - Compare a b /\
  (Compare a b = -1 \/ Compare a b = 0 \/ Compare a b = 1) /\
  (length a = 20%nat -> length b = 20%nat -> length c = 20%nat ->
   Compare a b <= 0 -> Compare b c <= 0 -> Compare a c <= 0).
Proof.
  unfold Compare. split; [|split; [|split]].
  - split; [apply bytes_Compare_zero | intros ->; apply bytes_Compare_refl].
  - apply bytes_Compare_opp.
  - apply bytes_Compare_range.
  - intros Ha Hb Hc.
    rewrite !bytes_Compare_value by congruence.
    destruct (Z.compare_spec (be_value a) (be_value b));
      destruct (Z.compare_spec (be_value b) (be_value c));
      destruct (Z.compare_spec (be_value a) (be_value c));
      cbn [int_of_comparison]; lia.
Qed.

Lemma Compare_total_order_witness :
  (Compare Nil Max = 0 <-> Nil = Max) /\
  Compare Max Nil = - Compare Nil Max /\
  (Compare Nil Max = -1 \/ Compare Nil Max = 0 \/ Compare Nil Max = 1) /\
  (Compare Nil Max <= 0 -> Compare Max Max <= 0 -> Compare Nil Max <= 0).
Proof.
  destruct (Compare_total_order Nil Max Max) as (H1 & H2 & H3 & H4).
  split; [exact H1 | split; [exact H2 | split; [exact H3|]]].
  apply H4; reflexivity.
Defined.

(** X2. [Nil] is the lowest and [Max] the highest 20-byte identifier, and
    only [Nil] and [Max] themselves compare equal to them. *)
Theorem Nil_lowest_Max_highest (i : XTID) :
  length i = 20%nat ->
  Compare Nil i <= 0 /\ Compare i Max <= 0 /\
  (Compare Nil i = 0 -> i = Nil) /\ (Compare i Max = 0 -> i = Max).
Proof.
  intros Hlen. unfold Compare.
  rewrite !bytes_Compare_value by (rewrite Hlen; reflexivity).
  pose proof (be_value_20 i Hlen) as Hi.
  change (be_value Nil) with 0. change (be_value Max) with (2 ^ 160 - 1).
  assert (H0 : be_value Nil = 0) by reflexivity.
  assert (HM : be_value Max = 2 ^ 160 - 1) by reflexivity.
  repeat split.
  - destruct (Z.compare_spec 0 (be_value i)); cbn; lia.
  - destruct (Z.compare_spec (be_value i) (2 ^ 160 - 1)); cbn; lia.
  - intros Heq. symmetry. apply bytes_Compare_zero.
    rewrite bytes_Compare_value, H0 by (rewrite Hlen; reflexivity).
    exact Heq.
  - intros Heq. apply bytes_Compare_zero.
    rewrite bytes_Compare_value, HM by (rewrite Hlen; reflexivity).
    exact Heq.
Qed.

Lemma Nil_lowest_Max_highest_witness :
  Compare Nil (repeat x7f 20) <= 0 /\ Compare (repeat x7f 20) Max <= 0 /\
  (Compare Nil (repeat x7f 20) = 0 -> repeat x7f 20 = Nil) /\
  (Compare (repeat x7f 20) Max = 0 -> repeat x7f 20 = Max).
Proof. apply (Nil_lowest_Max_highest (repeat x7f 20)). reflexivity. Defined.

(** ** The fields of an identifier *)

Lemma Uint64_be b : length b = 8%nat -> Uint64 b = be_value b.
Proof.
  intros Hlen. pose proof (be_value_bound b) as Hb. rewrite Hlen in Hb.
  change (256 ^ Z.of_nat 8) with (2 ^ 64) in Hb.
  rewrite <- (be_bytes_be_value b) at 1. rewrite Hlen, <- (PutUint64_be []).
  change (firstn 8 (PutUint64 [] (be_value b)))
    with (PutUint64 [] (be_value b)).
  rewrite Uint64_PutUint64. now apply Z.mod_small.
Qed.

Lemma Uint16_be b : length b = 2%nat -> Uint16 b = be_value b.
Proof.
  intros Hlen. pose proof (be_value_bound b) as Hb. rewrite Hlen in Hb.
  change (256 ^ Z.of_nat 2) with (2 ^ 16) in Hb.
  rewrite <- (be_bytes_be_value b) at 1. rewrite Hlen, <- (PutUint16_be []).
  change (firstn 2 (PutUint16 [] (be_value b)))
    with (PutUint16 [] (be_value b)).
  rewrite Uint16_PutUint16. now apply Z.mod_small.
Qed.

Lemma be_value_app x y :
  be_value (x ++ y) = be_value x * 256 ^ Z.of_nat (length y) + be_value y.
Proof.
  unfold be_value. rewrite map_app, horner_app, horner_split by lia.
  unfold weight. now rewrite length_map.
Qed.

(** A 20-byte array is its three fields, one after the other. *)
Lemma XTID_fields (i : XTID) :
  length i = 20%nat ->
  i = slice i 0 timestampLengthInBytes ++
      slice i timestampLengthInBytes payloadStart ++
      slice i payloadStart byteLength /\
  length (slice i 0 timestampLengthInBytes) = 8%nat /\
  length (slice i timestampLengthInBytes payloadStart) = 2%nat /\
  length (slice i payloadStart byteLength) = 10%nat.
Proof.
  intros Hlen.
  do 20 (destruct i as [|? i]; [discriminate|]).
  destruct i; [|discriminate]. repeat split.
Qed.

(** X3. The accessors read big-endian fields: for a 20-byte identifier,
    [Timestamp] is the number in bytes 0..8 and [Type] the number in bytes
    8..10, within the ranges of [uint64] and [uint16], and the 160-bit
    number of the identifier is timestamp * 2^96 + type * 2^80 + payload. *)
Theorem accessors_big_endian (i : XTID) :
  length i = 20%nat ->
  Timestamp i = be_value (slice i 0 timestampLengthInBytes) /\
  Type_ i = be_value (slice i timestampLengthInBytes payloadStart) /\
  0 <= Timestamp i < 2 ^ 64 /\
  0 <= Type_ i < 2 ^ 16 /\
  be_value i =
    Timestamp i * 2 ^ 96 + Type_ i * 2 ^ 80 +
    be_value (slice i payloadStart byteLength).
Proof.
  intros Hlen. destruct (XTID_fields i Hlen) as (Hi & H8 & H2 & H10).
  unfold Timestamp, Type_. rewrite Uint64_be, Uint16_be by assumption.
  pose proof (be_value_bound (slice i 0 timestampLengthInBytes)) as Hts.
  pose proof (be_value_bound (slice i timestampLengthInBytes payloadStart))
    as Hty.
  rewrite H8 in Hts. rewrite H2 in Hty.
  change (256 ^ Z.of_nat 8) with (2 ^ 64) in Hts.
  change (256 ^ Z.of_nat 2) with (2 ^ 16) in Hty.
  split; [reflexivity | split; [reflexivity | split; [exact Hts|]]].
  split; [exact Hty|].
  rewrite Hi at 1. rewrite !be_value_app, length_app, H2, H10.
  change (256 ^ Z.of_nat (2 + 10)) with (2 ^ 96).
  change (256 ^ Z.of_nat 10) with (2 ^ 80). ring.
Qed.

Lemma accessors_big_endian_witness :
  Timestamp Max = be_value (slice Max 0 timestampLengthInBytes) /\
  Type_ Max = be_value (slice Max timestampLengthInBytes payloadStart) /\
  0 <= Timestamp Max < 2 ^ 64 /\
  0 <= Type_ Max < 2 ^ 16 /\
  be_value Max =
    Timestamp Max * 2 ^ 96 + Type_ Max * 2 ^ 80 +
    be_value (slice Max payloadStart byteLength).
Proof. apply (accessors_big_endian Max). reflexivity. Defined.

(** X4. [Compare] orders 20-byte identifiers by time stamp first, by type
    among equal time stamps, and by the payload bytes among equal time
    stamps and types. *)
Theorem Compare_by_fields (a b : XTID) :
  length a = 20%nat -> length b = 20%nat ->
  Compare a b =
  match Timestamp a ?= Timestamp b with
  | Lt => -1
  | Gt => 1
  | Eq =>
      match Type_ a ?= Type_ b with
      | Lt => -1
      | Gt => 1
      | Eq => bytes_Compare (slice a payloadStart byteLength)
                            (slice b payloadStart byteLength)
      end
  end.
Proof.
  intros Ha Hb.
  destruct (XTID_fields a Ha) as (Hfa & Ha8 & Ha2 & Ha10).
  destruct (XTID_fields b Hb) as (Hfb & Hb8 & Hb2 & Hb10).
  unfold Compare, Timestamp, Type_.
  rewrite !Uint64_be, !Uint16_be by assumption.
  rewrite Hfa, Hfb at 1.
  rewrite !bytes_Compare_app by congruence.
  rewrite !bytes_Compare_value by congruence.
  destruct (be_value (slice a 0 timestampLengthInBytes) ?=
            be_value (slice b 0 timestampLengthInBytes));
    cbn [int_of_comparison Z.eqb]; try reflexivity.
  destruct (be_value (slice a timestampLengthInBytes payloadStart) ?=
            be_value (slice b timestampLengthInBytes payloadStart));
    cbn [int_of_comparison Z.eqb]; reflexivity.
Qed.

Lemma Compare_by_fields_witness :
  Compare Nil Max =
  match Timestamp Nil ?= Timestamp Max with
  | Lt => -1
  | Gt => 1
  | Eq =>
      match Type_ Nil ?= Type_ Max with
      | Lt => -1
      | Gt => 1
      | Eq => bytes_Compare (slice Nil payloadStart byteLength)
                            (slice Max payloadStart byteLength)
      end
  end.
Proof. apply (Compare_by_fields Nil Max); reflexivity. Defined.

(** ** Integer conversions and [time] *)

Lemma to_int64_range z : - 2 ^ 63 <= to_int64 z < 2 ^ 63.
Proof.
  unfold to_int64. pose proof (Z.mod_pos_bound (z + 2 ^ 63) (2 ^ 64)). lia.
Qed.

Lemma to_int64_small z : - 2 ^ 63 <= z < 2 ^ 63 -> to_int64 z = z.
Proof. intros Hz. unfold to_int64. rewrite Z.mod_small; lia. Qed.

Lemma to_int32_small z : - 2 ^ 31 <= z < 2 ^ 31 -> to_int32 z = z.
Proof. intros Hz. unfold to_int32. rewrite Z.mod_small; lia. Qed.

Lemma to_int64_uint64 z : to_int64 (to_uint64 z) = to_int64 z.
Proof.
  unfold to_int64, to_uint64. f_equal. now rewrite Zplus_mod_idemp_l.
Qed.

(** A non-negative [int64] keeps its value as [uint64]; a negative one
    lands in the upper half. *)
Lemma to_uint64_int64 z :
  - 2 ^ 63 <= z < 2 ^ 63 ->
  to_uint64 z = if z <? 0 then z + 2 ^ 64 else z.
Proof.
  intros Hz. unfold to_uint64. destruct (Z.ltb_spec z 0).
  - symmetry. apply Z.mod_unique with (q := -1); lia.
  - apply Z.mod_small. lia.
Qed.

(** What [time.UnixMicro] builds from a count of microseconds: the floor
    of the seconds, and the rest as nanoseconds. *)
Lemma time_UnixMicro_spec usec :
  - 2 ^ 63 <= usec < 2 ^ 63 ->
  time_UnixMicro usec =
  {| unixSec := usec / 1000000; nsec := usec mod 1000000 * 1000 |}.
Proof.
  intros Hu. unfold time_UnixMicro, time_Unix.
  assert (Hr : -1000000 < Z.rem usec 1000000 < 1000000)
    by (Z.to_euclidean_division_equations; lia).
  rewrite (to_int64_small (Z.rem usec 1000000 * 1000)) by lia.
  set (r := Z.rem usec 1000000) in *.
  assert (Hq : Z.quot (r * 1000) 1000000000 = 0)
    by (apply Z.quot_small_iff; lia).
  destruct (Z.ltb_spec (r * 1000) 0) as [Hneg | Hpos]; cbn [orb].
  - rewrite Hq. cbn [Z.mul]. rewrite (to_int64_small 0) by lia.
    rewrite Z.sub_0_r, Z.add_0_r.
    rewrite (to_int64_small (r * 1000)) by lia.
    destruct (Z.ltb_spec (r * 1000) 0); [|lia].
    rewrite (to_int64_small (r * 1000 + 1000000000)) by lia.
    rewrite to_int32_small by lia.
    assert (Hq6 : - 2 ^ 63 <= Z.quot usec 1000000 < 2 ^ 63)
      by (Z.to_euclidean_division_equations; lia).
    rewrite (to_int64_small (Z.quot usec 1000000)) by lia.
    rewrite to_int64_small
      by (subst r; Z.to_euclidean_division_equations; lia).
    f_equal; subst r; Z.to_euclidean_division_equations; lia.
  - destruct (Z.leb_spec 1000000000 (r * 1000)); [lia|].
    rewrite to_int32_small by lia.
    f_equal; subst r; Z.to_euclidean_division_equations; lia.
Qed.

(** X5. The time an identifier reports is its time stamp read as a signed
    count of microseconds: [i.Time().UnixMicro() = int64(i.Timestamp())],
    and the nanoseconds of that time are a whole number of microseconds
    within [0, 1e9). *)
Theorem Time_of_Timestamp (i : XTID) :
  UnixMicro (XTID_Time i) = to_int64 (Timestamp i) /\
  0 <= nsec (XTID_Time i) < 1000000000 /\
  nsec (XTID_Time i) mod 1000 = 0.
Proof.
  unfold XTID_Time, correctedUTCTimestampToTime.
  pose proof (to_int64_range (Timestamp i)) as Hr.
  rewrite time_UnixMicro_spec by exact Hr.
  set (usec := to_int64 (Timestamp i)) in *.
  unfold UnixMicro. cbn [unixSec nsec].
  pose proof (Z.mod_pos_bound usec 1000000 ltac:(lia)).
  split; [|split; [lia | apply Z.mod_mul; lia]].
  rewrite Z.div_mul by lia.
  rewrite <- (to_int64_small usec) at 3 by exact Hr. f_equal.
  pose proof (Z.div_mod usec 1000000 ltac:(lia)). lia.
Qed.

(** ** More on minting *)

Lemma Timestamp_be_bytes ts typ payload :
  Timestamp (be_bytes 8 ts ++ be_bytes 2 typ ++ payload) = ts mod 2 ^ 64.
Proof.
  unfold Timestamp.
  change (slice (be_bytes 8 ts ++ be_bytes 2 typ ++ payload) 0
                timestampLengthInBytes) with (be_bytes 8 ts).
  rewrite Uint64_be by apply be_bytes_length.
  apply be_value_be_bytes.
Qed.


(** A smaller time stamp in front decides the comparison. *)
Lemma Compare_be_bytes ts1 ts2 rest1 rest2 :
  0 <= ts1 < ts2 -> ts2 < 2 ^ 64 ->
  bytes_Compare (be_bytes 8 ts1 ++ rest1) (be_bytes 8 ts2 ++ rest2) = -1.
Proof.
  intros H1 H2.
  rewrite bytes_Compare_app by now rewrite !be_bytes_length.
  rewrite bytes_Compare_value by now rewrite !be_bytes_length.
  rewrite !be_value_be_bytes. change (256 ^ Z.of_nat 8) with (2 ^ 64).
  rewrite !Z.mod_small by lia.
  assert ((ts1 ?= ts2) = Lt) as -> by now apply Z.compare_lt_iff.
  reflexivity.
Qed.

Section MintFacts.

Context {R : Type} `{Reader R}.

Lemma readLoop_exit fuel r buf min n err buf' n' err' r' :
  readLoop fuel r buf min n err = Some (buf', n', err', r') ->
  (n <= length buf)%nat ->
  (n' <= length buf)%nat /\ ((n' < min)%nat -> err' <> None).
Proof.
  revert r buf n err.
  induction fuel as [|fuel IH]; intros r buf n err; cbn [readLoop];
    destruct (Nat.ltb_spec n min) as [Hlt | Hge]; cbn [andb];
    destruct err as [e|]; try discriminate;
    try (intros [= <- <- <- <-] Hn; split; [exact Hn | intros; congruence || lia]).
  destruct (Read r (length buf - n)) as [[d e1] r1].
  intros Hloop Hn.
  assert (Hd : (length (firstn (length buf - n) d) <= length buf - n)%nat)
    by (rewrite length_firstn; lia).
  assert (Hs : length (splice buf n (firstn (length buf - n) d)) = length buf)
    by (apply splice_length; lia).
  apply IH in Hloop; [|rewrite Hs; lia]. now rewrite Hs in Hloop.
Qed.

(** [io.ReadFull] returns no error exactly when it filled the buffer. *)
Lemma ReadFull_count fuel r buf buf' n err r' :
  ReadFull fuel r buf = Some (buf', n, err, r') ->
  (err = None -> n = length buf) /\ (err <> None -> (n < length buf)%nat).
Proof.
  unfold ReadFull, ReadAtLeast. rewrite Nat.ltb_irrefl.
  destruct (readLoop fuel r buf (length buf) 0 None)
    as [[[[b1 n1] e1] r1]|] eqn:Hloop; [|discriminate].
  apply readLoop_exit in Hloop as [Hle Herr]; [|lia].
  destruct (Nat.leb_spec (length buf) n1) as [Hfull | Hshort].
  - intros [= _ <- <- _]. split; [lia | congruence].
  - specialize (Herr Hshort).
    destruct e1 as [e1|]; [|congruence].
    destruct e1; try (intros [= _ <- <- _]; split; [discriminate | lia]).
    destruct (0 <? n1)%nat; intros [= _ <- <- _];
      (split; [discriminate | lia]).
Qed.

Lemma Make_ok_be fuel source t typ id source' :
  Make fuel source t typ = Some (id, None, source') ->
  exists payload,
    ReadFull fuel source (slice Nil payloadStart byteLength) =
      Some (payload, 10%nat, None, source') /\
    length payload = 10%nat /\
    id = be_bytes 8 (timeToCorrectedUTCTimestamp t) ++ be_bytes 2 typ ++
         payload.
Proof.
  intros HM. unfold Make in HM.
  destruct (ReadFull fuel source (slice Nil payloadStart byteLength))
    as [[[[payload n] err] r1]|] eqn:Hread; [|discriminate].
  pose proof (ReadFull_length _ _ _ _ _ _ _ Hread) as Hlen.
  pose proof (ReadFull_count _ _ _ _ _ _ _ Hread) as [Hn _].
  destruct err; [discriminate|]. injection HM as <- <-.
  rewrite (Hn eq_refl) in Hread.
  change (length (slice Nil payloadStart byteLength)) with 10%nat in *.
  exists payload. split; [now rewrite (Hn eq_refl) | split; [exact Hlen|]].
  rewrite <- (PutUint64_be (repeat x00 8)), <- (PutUint16_be (repeat x00 2)).
  do 10 (destruct payload as [|? payload]; [discriminate|]).
  destruct payload; [|discriminate].
  reflexivity.
Qed.

(** X6. Identifiers sort by the time they were minted at: of two
    identifiers that [Make] returned without error for times at or after
    the epoch, the one with the earlier microsecond compares lower,
    whatever the types and the payloads. *)
Theorem Make_time_ordered
    (fuel1 fuel2 : nat) (s1 s2 s1' s2' : R) (t1 t2 : Time)
    (typ1 typ2 : Z) (id1 id2 : XTID) :
  Make fuel1 s1 t1 typ1 = Some (id1, None, s1') ->
  Make fuel2 s2 t2 typ2 = Some (id2, None, s2') ->
  0 <= UnixMicro t1 < UnixMicro t2 ->
  Compare id1 id2 = -1.
Proof.
  intros HM1 HM2 Hlt.
  destruct (Make_ok_be _ _ _ _ _ _ HM1) as (p1 & _ & _ & ->).
  destruct (Make_ok_be _ _ _ _ _ _ HM2) as (p2 & _ & _ & ->).
  pose proof (to_int64_range (unixSec t2 * 1000000 + nsec t2 / 1000)) as H2.
  fold (UnixMicro t2) in H2.
  unfold Compare, timeToCorrectedUTCTimestamp.
  apply Compare_be_bytes; unfold to_uint64; rewrite !Z.mod_small; lia.
Qed.

(** X7. A time before the epoch is stored as a time stamp in the upper
    half of [uint64]: an identifier minted for such a time compares higher
    than every identifier minted for a time at or after the epoch. *)
Theorem Make_before_epoch_sorts_last
    (fuel1 fuel2 : nat) (s1 s2 s1' s2' : R) (t1 t2 : Time)
    (typ1 typ2 : Z) (id1 id2 : XTID) :
  Make fuel1 s1 t1 typ1 = Some (id1, None, s1') ->
  Make fuel2 s2 t2 typ2 = Some (id2, None, s2') ->
  UnixMicro t1 < 0 <= UnixMicro t2 ->
  2 ^ 63 <= Timestamp id1 /\ Compare id2 id1 = -1.
Proof.
  intros HM1 HM2 Hlt.
  destruct (Make_ok_be _ _ _ _ _ _ HM1) as (p1 & _ & _ & ->).
  destruct (Make_ok_be _ _ _ _ _ _ HM2) as (p2 & _ & _ & ->).
  pose proof (to_int64_range (unixSec t1 * 1000000 + nsec t1 / 1000)) as H1.
  pose proof (to_int64_range (unixSec t2 * 1000000 + nsec t2 / 1000)) as H2.
  fold (UnixMicro t1) in H1. fold (UnixMicro t2) in H2.
  pose proof (to_uint64_int64 _ H1) as E1.
  pose proof (to_uint64_int64 _ H2) as E2.
  destruct (Z.ltb_spec (UnixMicro t1) 0); [|lia].
  destruct (Z.ltb_spec (UnixMicro t2) 0); [lia|].
  unfold timeToCorrectedUTCTimestamp. split.
  - rewrite Timestamp_be_bytes, E1. rewrite Z.mod_small; lia.
  - unfold Compare. apply Compare_be_bytes; rewrite ?E1, ?E2; lia.
Qed.

(** X8. The payload of an identifier that [Make] returns without error is
    what [io.ReadFull] stored: exactly 10 bytes were read from the entropy
    source and they are bytes 10..20 of the identifier. *)
Theorem Make_payload
    (fuel : nat) (source source' : R) (t : Time) (typ : Z) (id : XTID) :
  Make fuel source t typ = Some (id, None, source') ->
  exists payload,
    ReadFull fuel source (slice Nil payloadStart byteLength) =
      Some (payload, 10%nat, None, source') /\
    length payload = payloadLengthInBytes /\
    slice id payloadStart byteLength = payload.
Proof.
  intros HM.
  destruct (Make_ok_be _ _ _ _ _ _ HM) as (payload & Hread & Hlen & ->).
  exists payload. split; [exact Hread | split; [exact Hlen|]].
  do 10 (destruct payload as [|? payload]; [discriminate|]).
  destruct payload; [|discriminate].
  reflexivity.
Qed.

(** X9. The time of an identifier that [Make] returns without error is
    the time it was made for, cut to whole microseconds, provided that
    time counts in [int64] microseconds. *)
Theorem Make_Time_round_trip
    (fuel : nat) (source source' : R) (t : Time) (typ : Z) (id : XTID) :
  0 <= nsec t < 1000000000 ->
  - 2 ^ 63 <= unixSec t * 1000000 + nsec t / 1000 < 2 ^ 63 ->
  Make fuel source t typ = Some (id, None, source') ->
  XTID_Time id = {| unixSec := unixSec t; nsec := nsec t / 1000 * 1000 |}.
Proof.
  intros Hns Hrange HM.
  destruct (Make_ok_be _ _ _ _ _ _ HM) as (payload & _ & _ & ->).
  unfold XTID_Time, correctedUTCTimestampToTime.
  rewrite Timestamp_be_bytes.
  unfold timeToCorrectedUTCTimestamp, UnixMicro.
  rewrite (to_int64_small _ Hrange).
  fold (to_uint64 (to_uint64 (unixSec t * 1000000 + nsec t / 1000))).
  rewrite !to_int64_uint64, (to_int64_small _ Hrange).
  rewrite time_UnixMicro_spec by exact Hrange.
  assert (Hm : 0 <= nsec t / 1000 < 1000000)
    by (Z.to_euclidean_division_equations; lia).
  f_equal.
  - symmetry. apply Z.div_unique with (r := nsec t / 1000); lia.
  - f_equal. symmetry. apply Z.mod_unique with (q := unixSec t); lia.
Qed.


End MintFacts.

Lemma Make_time_ordered_witness :
  let source := chunkReader [x41; x42; x43; x44] EOF in
  let t1 := {| unixSec := 1704067200; nsec := 1000 |} in
  let t2 := {| unixSec := 1704067200; nsec := 2000 |} in
  exists id1 id2,
    @Make nat source 5 3%nat t1 9 = Some (id1, None, 0%nat) /\
    @Make nat source 5 3%nat t2 7 = Some (id2, None, 0%nat) /\
    Compare id1 id2 = -1.
Proof.
  intros source t1 t2. eexists. eexists.
  split; [vm_compute; reflexivity|]. split; [vm_compute; reflexivity|].
  apply (@Make_time_ordered nat source 5 5 3%nat 3%nat 0%nat 0%nat t1 t2 9 7).
  - vm_compute. reflexivity.
  - vm_compute. reflexivity.
  - vm_compute. split; [discriminate | reflexivity].
Defined.

Lemma Make_before_epoch_sorts_last_witness :
  let source := chunkReader [x41; x42; x43; x44] EOF in
  let t1 := {| unixSec := -1; nsec := 999999000 |} in
  let t2 := {| unixSec := 0; nsec := 0 |} in
  exists id1 id2,
    @Make nat source 5 3%nat t1 7 = Some (id1, None, 0%nat) /\
    @Make nat source 5 3%nat t2 7 = Some (id2, None, 0%nat) /\
    2 ^ 63 <= Timestamp id1 /\ Compare id2 id1 = -1.
Proof.
  intros source t1 t2. eexists. eexists.
  split; [vm_compute; reflexivity|]. split; [vm_compute; reflexivity|].
  apply (@Make_before_epoch_sorts_last nat source 5 5 3%nat 3%nat 0%nat 0%nat
           t1 t2 7 7).
  - vm_compute. reflexivity.
  - vm_compute. reflexivity.
  - vm_compute. split; [reflexivity | discriminate].
Defined.

Lemma Make_payload_witness :
  let source := chunkReader [x41; x42; x43; x44] EOF in
  let t := {| unixSec := 1704067200; nsec := 1000 |} in
  exists id payload,
    @Make nat source 5 3%nat t 7 = Some (id, None, 0%nat) /\
    @ReadFull nat source 5 3%nat (slice Nil payloadStart byteLength) =
      Some (payload, 10%nat, None, 0%nat) /\
    length payload = payloadLengthInBytes /\
    slice id payloadStart byteLength = payload.
Proof.
  intros source t. eexists.
  assert (HM : @Make nat source 5 3%nat t 7 =
               Some ([x00; x06; x0d; xd7; x10; x21; x20; x01; x00; x07;
                      x41; x42; x43; x44; x41; x42; x43; x44; x41; x42],
                     None, 0%nat)) by (vm_compute; reflexivity).
  destruct (@Make_payload nat source 5 3%nat 0%nat t 7 _ HM)
    as (payload & Hp).
  exists payload. split; [exact HM | exact Hp].
Defined.

Lemma Make_Time_round_trip_witness :
  let source := chunkReader [x41; x42; x43; x44] EOF in
  let t := {| unixSec := 1704067200; nsec := 1500 |} in
  exists id,
    @Make nat source 5 3%nat t 7 = Some (id, None, 0%nat) /\
    XTID_Time id = {| unixSec := 1704067200; nsec := 1000 |}.
Proof.
  intros source t. eexists. split; [vm_compute; reflexivity|].
  apply (@Make_Time_round_trip nat source 5 3%nat 0%nat t 7).
  - vm_compute. split; [discriminate | reflexivity].
  - vm_compute. split; [discriminate | reflexivity].
  - vm_compute. reflexivity.
Defined.


(** ** The entropy pool *)

Lemma readLoop_pool {R : Type} `{Reader R} fuel (r : R) buf min n err :
  readLoop fuel {| buffer := r |} buf min n err =
  match readLoop fuel r buf min n err with
  | None => None
  | Some (b, k, e, r') => Some (b, k, e, {| buffer := r' |})
  end.
Proof.
  revert r buf n err.
  induction fuel as [|fuel IH]; intros r buf n err; cbn [readLoop];
    destruct ((n <? min)%nat && _); try reflexivity.
  cbn [Read entropyPool_Reader buffer].
  destruct (Read r (length buf - n)) as [[d e1] r1]. apply IH.
Qed.

(** X11. The entropy pool hands on what its buffer reads: minting from a
    pool gives the identifier and the error that minting from the wrapped
    reader gives, and leaves the wrapped reader in the same state. *)
Theorem entropyPool_transparent {R : Type} `{Reader R}
    (fuel : nat) (r : R) (t : Time) (typ : Z) :
  Make fuel {| buffer := r |} t typ =
  match Make fuel r t typ with
  | None => None
  | Some (id, err, r') => Some (id, err, {| buffer := r' |})
  end.
Proof.
  unfold Make, ReadFull, ReadAtLeast. rewrite readLoop_pool.
  destruct (length (slice Nil payloadStart byteLength) <?
            length (slice Nil payloadStart byteLength))%nat; [reflexivity|].
  destruct (readLoop fuel r _ _ 0 None) as [[[[b k] e] r']|];
    [|reflexivity].
  destruct (length (slice Nil payloadStart byteLength) <=? k)%nat;
    [reflexivity|].
  destruct e as [[]|]; try reflexivity.
  destruct (0 <? k)%nat; reflexivity.
Qed.

(** ** More on the adapters *)

Lemma Parse_String (i : XTID) :
  length i = 20%nat -> Parse (String i) = (i, None).
Proof.
  intros Hlen.
  destruct (String_digits i Hlen) as (ds & -> & Hl & Hok & Hv).
  rewrite (Parse_digits _ ds), Hv;
    [| now rewrite length_map | now apply symbols_digits_map].
  pose proof (be_value_20 i Hlen).
  destruct (Z.leb_spec (2 ^ 160) (be_value i)); [lia|].
  now rewrite <- Hlen, be_bytes_be_value.
Qed.


(** X12. The binary form round-trips: for a 20-byte identifier,
    [FromBytes], [FromBytesOrNil], [UnmarshalBinary] and [Scan] give it
    back from its [Bytes]; and the [Bytes] of what [FromBytes] makes of 20
    bytes are those bytes. *)
Theorem binary_round_trip (r i : XTID) (b : list byte) :
  (length i = 20%nat ->
   FromBytes (Bytes i) = (i, None) /\
   FromBytesOrNil (Bytes i) = i /\
   UnmarshalBinary r (fst (MarshalBinary i)) = (i, None) /\
   Scan r (any_bytes (Bytes i)) = (i, None)) /\
  (length b = 20%nat -> Bytes (fst (FromBytes b)) = b).
Proof.
  split.
  - intros Hlen. unfold FromBytesOrNil, UnmarshalBinary, Scan, scan, Bytes.
    cbn [MarshalBinary fst Bytes]. rewrite Hlen.
    unfold UnmarshalBinary. rewrite !FromBytes_20 by assumption. auto.
  - intros Hlen. now rewrite FromBytes_20.
Qed.

Lemma binary_round_trip_witness :
  (FromBytes (Bytes Max) = (Max, None) /\
   FromBytesOrNil (Bytes Max) = Max /\
   UnmarshalBinary Nil (fst (MarshalBinary Max)) = (Max, None) /\
   Scan Nil (any_bytes (Bytes Max)) = (Max, None)) /\
  Bytes (fst (FromBytes (repeat x7f 20))) = repeat x7f 20.
Proof.
  destruct (binary_round_trip Nil Max (repeat x7f 20)) as [H1 H2].
  split; [apply H1 | apply H2]; reflexivity.
Defined.



(** X14. What [Value] hands to the database comes back through [Scan]:
    [Value] never fails, gives the null value exactly for [Nil], and
    scanning the value of a 20-byte identifier sets the receiver to that
    identifier. *)
Theorem Value_Scan_round_trip (r i : XTID) :
  length i = 20%nat ->
  snd (Value i) = None /\
  (fst (Value i) = any_nil <-> i = Nil) /\
  Scan r (fst (Value i)) = (i, None).
Proof.
  intros Hlen. unfold Value, IsNil.
  destruct (list_eq_dec Byte.byte_eq_dec i Nil) as [-> | Hne]; cbn [fst snd].
  - split; [reflexivity | split; [tauto | reflexivity]].
  - split; [reflexivity | split; [split; [discriminate | tauto]|]].
    cbn [Scan]. unfold scan. rewrite (String_length i Hlen).
    unfold UnmarshalText. now rewrite Parse_String.
Qed.

Lemma Value_Scan_round_trip_witness :
  snd (Value Max) = None /\
  (fst (Value Max) = any_nil <-> Max = Nil) /\
  Scan Nil (fst (Value Max)) = (Max, None).
Proof. apply (Value_Scan_round_trip Nil Max). reflexivity. Defined.

(** X15. The text adapters undo each other: for a 20-byte identifier,
    [UnmarshalText] reads back what [MarshalText] wrote, [UnmarshalJSON]
    what [MarshalJSON] wrote, and [Set] and [ParseOrNil] what [String]
    gave. *)
Theorem text_adapters_round_trip (r i : XTID) :
  length i = 20%nat ->
  UnmarshalText r (fst (MarshalText i)) = (i, None) /\
  UnmarshalJSON r (fst (MarshalJSON i)) = (i, None) /\
  Set_ r (String i) = (i, None) /\
  ParseOrNil (String i) = i.
Proof.
  intros Hlen.
  unfold UnmarshalJSON, MarshalJSON, MarshalText, Set_, ParseOrNil, scan.
  cbn [fst]. rewrite (String_length i Hlen).
  unfold UnmarshalText. rewrite !Parse_String by assumption. auto.
Qed.

Lemma text_adapters_round_trip_witness :
  UnmarshalText Nil (fst (MarshalText Max)) = (Max, None) /\
  UnmarshalJSON Nil (fst (MarshalJSON Max)) = (Max, None) /\
  Set_ Nil (String Max) = (Max, None) /\
  ParseOrNil (String Max) = Max.
Proof. apply (text_adapters_round_trip Nil Max). reflexivity. Defined.
